(** * Slot traversal of script modules (torch/csrc/jit/api/module.h)

    A shallow embedding of [detail::SlotCursor], [slot_iterator_impl],
    [slot_list_impl] and the traversal policies ([ModulePolicy],
    [ParameterPolicy], [BufferPolicy], [AttributePolicy], [NamedPolicy]),
    followed by the properties of the depth-first pre-order enumeration. *)

From Stdlib Require Import Bool String List ZArith Lia Arith.
Import ListNotations.

Set Warnings "-register-all".

Local Open Scope Z_scope.

(** ** Outcomes of fallible code

    The C++ code throws (a failed [toTensor], [toModule] or [toObject]; an
    attribute index out of range) or is undefined ([back()] of an empty
    vector).  Loops are run with a step budget. *)

Inductive error : Type :=
  | TypeMismatch   (* IValue conversion applied to a value of another kind *)
  | OutOfRange     (* attribute or slot index outside the class *)
  | EmptyStack     (* top() of an iterator without cursors *)
  | OutOfFuel.     (* the step budget of a loop was used up *)

Inductive result (A : Type) : Type :=
  | Ok (a : A)
  | Err (e : error).
Arguments Ok {A} a.
Arguments Err {A} e.

Definition bind {A B : Type} (r : result A) (k : A -> result B) : result B :=
  match r with
  | Ok a => k a
  | Err e => Err e
  end.

Notation "x <- r ;; k" := (bind r (fun x => k))
  (at level 61, r at next level, right associativity).

(** ** The typed slot container *)

(** Modelled from the spec: the type descriptor of a slot (c10::Type, whose
    declaration is not part of the sources) is seen only through
    [is_module()] and [isSubtypeOf(TensorType::get())]. *)
Record TypePtr : Type := mkType {
  is_module : bool;
  isSubtypeOfTensor : bool
}.

(** [at::Tensor] is an opaque handle. *)
Definition Tensor : Type := nat.

(** Modelled from the spec: one slot of a container carries its name, its
    declared type, its parameter mark and its value (ClassType and
    ivalue::Object are declared outside the sources). *)
Record Attribute (V : Type) : Type := mkAttribute {
  getName : string;
  getType : TypePtr;
  attr_is_parameter : bool;
  getValue : V
}.
Arguments mkAttribute {V} _ _ _ _.
Arguments getName {V} _.
Arguments getType {V} _.
Arguments attr_is_parameter {V} _.
Arguments getValue {V} _.

(** Modelled from the spec: the tagged union IValue, restricted to the kinds
    the traversal distinguishes; an object owns its ordered slots. *)
Inductive IValue : Type :=
  | IVNone
  | IVInt (z : Z)
  | IVTensor (t : Tensor)
  | IVObject (slots : list (Attribute IValue)).

(** [Module] wraps the object pointer ([ModulePtr]). *)
Record Module : Type := mkModule { slots : list (Attribute IValue) }.

Definition _ivalue (m : Module) : IValue := IVObject (slots m).

Definition isTensor (v : IValue) : bool :=
  match v with IVTensor _ => true | _ => false end.

Definition isObject (v : IValue) : bool :=
  match v with IVObject _ => true | _ => false end.

Definition toTensor (v : IValue) : result Tensor :=
  match v with IVTensor t => Ok t | _ => Err TypeMismatch end.

Definition toObject (v : IValue) : result Module :=
  match v with IVObject ss => Ok (mkModule ss) | _ => Err TypeMismatch end.

Definition toModule (v : IValue) : result Module := toObject v.

Definition numAttributes (m : Module) : nat := length (slots m).

Definition num_slots (m : Module) : nat := length (slots m).

(** Indexing with a [size_t]: an [int64_t] cursor offset that is negative
    converts to an index far beyond any class. *)
Definition attribute_at (m : Module) (i : Z) : result (Attribute IValue) :=
  if i <? 0 then Err OutOfRange
  else match nth_error (slots m) (Z.to_nat i) with
       | Some a => Ok a
       | None => Err OutOfRange
       end.

Definition getAttribute (m : Module) (i : Z) : result TypePtr :=
  a <- attribute_at m i ;; Ok (getType a).

Definition getAttributeName (m : Module) (i : Z) : result string :=
  a <- attribute_at m i ;; Ok (getName a).

Definition getSlot (m : Module) (i : Z) : result IValue :=
  a <- attribute_at m i ;; Ok (getValue a).

(** ** Cursors *)

Record SlotCursor : Type := mkCursor {
  module_ : Module;
  i_ : Z  (* slot offset, -1 indicates the module itself *)
}.

(** The vector [cursors_] is kept with [back()] at the head of the list: the
    C++ order [cursors_[0], ..., cursors_.back()] is [rev] of it. *)
Definition cursors : Type := list SlotCursor.

Definition incr (c : SlotCursor) : SlotCursor :=
  mkCursor (module_ c) (i_ c + 1).

(** ** Policies *)

Record Named (T : Type) : Type := mkNamed { name : string; value : T }.
Arguments mkNamed {T} _ _.
Arguments name {T} _.
Arguments value {T} _.

Inductive Policy : Type :=
  | ModulePolicy
  | ParameterPolicy
  | BufferPolicy
  | AttributePolicy
  | NamedPolicy (P : Policy).

Fixpoint value_type (P : Policy) : Type :=
  match P with
  | ModulePolicy => Module
  | ParameterPolicy => Tensor
  | BufferPolicy => Tensor
  | AttributePolicy => IValue
  | NamedPolicy P' => Named (value_type P')
  end.

(** [Policy::valid(typ, i, v)]: the iterator passes the class of the top
    module, the offset and the slot's value; here the slot record stands for
    the three. *)
Fixpoint policy_valid (P : Policy) (a : Attribute IValue) : bool :=
  match P with
  | ModulePolicy => is_module (getType a)
  | ParameterPolicy => attr_is_parameter a && isTensor (getValue a)
  | BufferPolicy => isSubtypeOfTensor (getType a) && negb (attr_is_parameter a)
  | AttributePolicy => true
  | NamedPolicy P' => policy_valid P' a
  end.

Fixpoint all_slots (P : Policy) : bool :=
  match P with
  | ModulePolicy => false
  | ParameterPolicy => false
  | BufferPolicy => false
  | AttributePolicy => true
  | NamedPolicy P' => all_slots P'
  end.

Definition nameFragment (f : SlotCursor) : result string :=
  getAttributeName (module_ f) (i_ f).

(** The [for] loop of [NamedPolicy::create] over [cursors[i]], [i] counting
    from the position of the first element of [vec]; [ss] is the stream. *)
Fixpoint name_loop (i : nat) (vec : list SlotCursor) (ss : string)
  : result string :=
  match vec with
  | [] => Ok ss
  | f :: vec' =>
      let ss1 := if (0 <? i)%nat then (ss ++ ".")%string else ss in
      frag <- nameFragment f ;;
      name_loop (S i) vec' (ss1 ++ frag)%string
  end.

Definition named_name (cs : cursors) : result string :=
  if (length cs =? 1)%nat then
    match cs with
    | back :: _ => if i_ back =? -1 then Ok EmptyString else nameFragment back
    | [] => Err EmptyStack
    end
  else name_loop 0 (rev cs) EmptyString.

Fixpoint create (P : Policy) (cs : cursors) (v : IValue)
  : result (value_type P) :=
  match P with
  | ModulePolicy => toObject v
  | ParameterPolicy => toTensor v
  | BufferPolicy => toTensor v
  | AttributePolicy => Ok v
  | NamedPolicy P' =>
      n <- named_name cs ;;
      x <- create P' cs v ;;
      Ok (mkNamed n x)
  end.

(** ** slot_iterator_impl *)

Section Iterator.

Variable P : Policy.

(** The iterator state: [cursors_] and [recurse_]. *)
Record slot_iterator_impl : Type := mkIter {
  cursors_ : cursors;
  recurse_ : bool
}.

Definition top (cs : cursors) : result SlotCursor :=
  match cs with
  | c :: _ => Ok c
  | [] => Err EmptyStack
  end.

Definition return_module (cs : cursors) : result bool :=
  t <- top cs ;; Ok (i_ t =? -1).

Definition cur (cs : cursors) : result IValue :=
  t <- top cs ;;
  if i_ t =? -1 then Ok (_ivalue (module_ t))
  else getSlot (module_ t) (i_ t).

Definition deref (it : slot_iterator_impl) : result (value_type P) :=
  v <- cur (cursors_ it) ;; create P (cursors_ it) v.

Definition next (recurse : bool) (cs : cursors) : result cursors :=
  match cs with
  | [] => Err EmptyStack
  | t :: rest =>
      if i_ t =? -1 then Ok (incr t :: rest)
      else if i_ t >=? Z.of_nat (numAttributes (module_ t)) then
        match rest with
        | [] => Ok []
        | p :: rest' => Ok (incr p :: rest')
        end
      else if recurse then
        ty <- getAttribute (module_ t) (i_ t) ;;
        if is_module ty then
          v <- cur cs ;;
          m <- toModule v ;;
          Ok (mkCursor m 0 :: t :: rest)
        else Ok (incr t :: rest)
      else Ok (incr t :: rest)
  end.

Definition valid (cs : cursors) : result bool :=
  t <- top cs ;;
  if i_ t <? Z.of_nat (numAttributes (module_ t)) then
    a <- attribute_at (module_ t) (i_ t) ;; Ok (policy_valid P a)
  else Ok false.

(** [while (!cursors_.empty() && !return_module() && !valid()) next();] *)
Fixpoint while_not_valid_next (fuel : nat) (recurse : bool) (cs : cursors)
  : result cursors :=
  match fuel with
  | O => Err OutOfFuel
  | S fuel' =>
      match cs with
      | [] => Ok cs
      | _ :: _ =>
          rm <- return_module cs ;;
          if rm then Ok cs
          else
            ok <- valid cs ;;
            if ok then Ok cs
            else
              cs' <- next recurse cs ;;
              while_not_valid_next fuel' recurse cs'
      end
  end.

Definition next_valid (fuel : nat) (it : slot_iterator_impl)
  : result slot_iterator_impl :=
  match cursors_ it with
  | [] => Ok it
  | _ :: _ =>
      cs1 <- next (recurse_ it) (cursors_ it) ;;
      cs2 <- while_not_valid_next fuel (recurse_ it) cs1 ;;
      Ok (mkIter cs2 (recurse_ it))
  end.

(** The constructor taking [(root, recurse, return_module)]. *)
Definition make_iterator (fuel : nat) (root : Module) (recurse inc : bool)
  : result slot_iterator_impl :=
  cs <- while_not_valid_next fuel recurse
          [mkCursor root (if inc then -1 else 0)] ;;
  Ok (mkIter cs recurse).

(** The default constructor: empty [cursors_], represents end of iteration. *)
Definition end_iterator : slot_iterator_impl := mkIter [] false.

Definition empty (cs : cursors) : bool :=
  match cs with [] => true | _ :: _ => false end.

(** [operator!=]. *)
Definition neq (a b : slot_iterator_impl) : bool :=
  negb (Bool.eqb (empty (cursors_ a)) (empty (cursors_ b))).

(** ** slot_list_impl *)

Record slot_list_impl : Type := mkList {
  list_module_ : Module;
  list_recurse_ : bool;
  list_return_module_ : bool;
  size_ : option nat
}.

Definition make_list (m : Module) (recurse inc : bool) : slot_list_impl :=
  mkList m recurse inc
    (if negb recurse && negb inc && all_slots P then Some (num_slots m)
     else None).

Definition begin_ (fuel : nat) (l : slot_list_impl)
  : result slot_iterator_impl :=
  make_iterator fuel (list_module_ l) (list_recurse_ l)
    (list_return_module_ l).

Definition end_ (l : slot_list_impl) : slot_iterator_impl := end_iterator.

(** The range-based [for] over a list: [n] bounds the number of elements,
    [fuel] the steps of each [operator++]; [acc] collects [*it]. *)
Fixpoint for_each (fuel n : nat) (it : slot_iterator_impl)
  (acc : list (value_type P)) : result (list (value_type P)) :=
  match n with
  | O => Err OutOfFuel
  | S n' =>
      if neq it end_iterator then
        s <- deref it ;;
        it' <- next_valid fuel it ;;
        for_each fuel n' it' (acc ++ [s])
      else Ok acc
  end.

(** Exhaustive iteration of a list from [begin()] to [end()]. *)
Definition elements (fuel : nat) (l : slot_list_impl)
  : result (list (value_type P)) :=
  it <- begin_ fuel l ;;
  for_each fuel fuel it [].

(** [size()]: returns the size and the list with its cache filled.  When the
    iteration throws, the C++ object is left with the count reached so far
    in [size_]; the list after an exception is not represented here. *)
Definition size (fuel : nat) (l : slot_list_impl)
  : result (nat * slot_list_impl) :=
  match size_ l with
  | Some n => Ok (n, l)
  | None =>
      xs <- elements fuel l ;;
      let n := length xs in
      Ok (n, mkList (list_module_ l) (list_recurse_ l)
                    (list_return_module_ l) (Some n))
  end.

End Iterator.

(** ** The queries of Module *)

(** Modelled from the spec: the bodies of the list queries of [Module]
    (they are declared in the header; their definitions are not part of the
    sources): the policy, the recurse flag and the include-root flag of each
    query. *)
Definition children (m : Module) : slot_list_impl :=
  make_list ModulePolicy m false false.
Definition named_children (m : Module) : slot_list_impl :=
  make_list (NamedPolicy ModulePolicy) m false false.
Definition modules (m : Module) : slot_list_impl :=
  make_list ModulePolicy m true true.
Definition named_modules (m : Module) : slot_list_impl :=
  make_list (NamedPolicy ModulePolicy) m true true.
Definition parameters (m : Module) (recurse : bool) : slot_list_impl :=
  make_list ParameterPolicy m recurse false.
Definition named_parameters (m : Module) (recurse : bool) : slot_list_impl :=
  make_list (NamedPolicy ParameterPolicy) m recurse false.
Definition buffers (m : Module) (recurse : bool) : slot_list_impl :=
  make_list BufferPolicy m recurse false.
Definition named_buffers (m : Module) (recurse : bool) : slot_list_impl :=
  make_list (NamedPolicy BufferPolicy) m recurse false.
Definition attributes (m : Module) (recurse : bool) : slot_list_impl :=
  make_list AttributePolicy m recurse false.
Definition named_attributes (m : Module) (recurse : bool) : slot_list_impl :=
  make_list (NamedPolicy AttributePolicy) m recurse false.

(** ** Structural validity and the structure of a traversal *)

(** A slot conforms to its declared type: a module type holds an object and a
    tensor type holds a tensor. *)
Definition slot_conforms (a : Attribute IValue) : bool :=
  implb (is_module (getType a)) (isObject (getValue a)) &&
  implb (isSubtypeOfTensor (getType a)) (isTensor (getValue a)).

(** Every slot of a container conforms, and so does every slot of the
    containers nested in its module-typed slots. *)
Fixpoint structurally_valid (v : IValue) : bool :=
  match v with
  | IVObject ss =>
      forallb (fun a => slot_conforms a &&
                 (if is_module (getType a) then structurally_valid (getValue a)
                  else true)) ss
  | _ => true
  end.

(** The sum of the slot counts of the containers reachable from a value that
    is a container (through module-typed slots), the container included. *)
Fixpoint total_slots (v : IValue) : nat :=
  match v with
  | IVObject ss =>
      list_sum (map (fun a => S (if is_module (getType a)
                                 then total_slots (getValue a) else O)) ss)
  | _ => O
  end.

(** The slots of the containers of a tree: the slots of the root and of
    every container held by a module-typed slot of the tree. *)
Inductive slot_of_tree : IValue -> Attribute IValue -> Prop :=
  | slot_here ss a : In a ss -> slot_of_tree (IVObject ss) a
  | slot_below ss b a :
      In b ss -> is_module (getType b) = true ->
      slot_of_tree (getValue b) a -> slot_of_tree (IVObject ss) a.

(** The positions a traversal of the slots [suf] of [m], from offset [i] on,
    passes through before the cursor of [m] is popped, each with the verdict
    of [Policy::valid] there; [sub] gives the positions inside a nested
    module. *)
Fixpoint walk_slots (P : Policy) (recurse : bool)
  (sub : IValue -> cursors -> list (cursors * bool))
  (m : Module) (rest : cursors) (suf : list (Attribute IValue)) (i : nat)
  : list (cursors * bool) :=
  let here := mkCursor m (Z.of_nat i) :: rest in
  match suf with
  | [] => [(here, false)]
  | a :: suf' =>
      (here, policy_valid P a)
        :: (if recurse && is_module (getType a) then sub (getValue a) here
            else [])
        ++ walk_slots P recurse sub m rest suf' (S i)
  end.

Fixpoint walk (P : Policy) (recurse : bool) (v : IValue) (rest : cursors)
  : list (cursors * bool) :=
  match v with
  | IVObject ss =>
      walk_slots P recurse (walk P recurse) (mkModule ss) rest ss 0
  | _ => []
  end.

(** All positions of the iteration of a list, the root itself first when it
    is included. *)
Definition positions (P : Policy) (root : Module) (recurse inc : bool)
  : list (cursors * bool) :=
  (if inc then [([mkCursor root (-1)], true)] else [])
    ++ walk P recurse (_ivalue root) [].

(** Left-to-right evaluation of a fallible function over a list. *)
Fixpoint mapM {A B : Type} (f : A -> result B) (l : list A)
  : result (list B) :=
  match l with
  | [] => Ok []
  | x :: l' => y <- f x ;; ys <- mapM f l' ;; Ok (y :: ys)
  end.

(** The positions at which the iterator stops, in order. *)
Definition stops (l : list (cursors * bool)) : list cursors :=
  map fst (filter snd l).

(** The name of a position as the spec words it: empty for the lone sentinel
    cursor, else the slot names from the root to the position joined by
    dots. *)
Definition dotted_name (cs : cursors) : result string :=
  let joined :=
    names <- mapM nameFragment (rev cs) ;;
    Ok (String.concat "."%string names) in
  match cs with
  | [c] => if i_ c =? -1 then Ok EmptyString else joined
  | _ => joined
  end.

(** ** Runs of [next] *)

(** The test of the loop in [while_not_valid_next] at a position that has a
    cursor: does the iterator stop here? *)
Definition at_element (P : Policy) (cs : cursors) : result bool :=
  rm <- return_module cs ;; if rm then Ok true else valid P cs.

(** [Walk cs l cs']: [next] leads from [cs] to [cs'] through the positions
    of [l], none of which fails, with the recorded verdicts. *)
Inductive Walk (P : Policy) (recurse : bool)
  : cursors -> list (cursors * bool) -> cursors -> Prop :=
  | Walk_done cs : Walk P recurse cs [] cs
  | Walk_step cs b cs1 l cs2 :
      at_element P cs = Ok b ->
      next recurse cs = Ok cs1 ->
      Walk P recurse cs1 l cs2 ->
      Walk P recurse cs ((cs, b) :: l) cs2.

(** Drop the positions the iterator does not stop at. *)
Fixpoint skip (l : list (cursors * bool)) : list (cursors * bool) :=
  match l with
  | [] => []
  | (c, b) :: l' => if b then l else skip l'
  end.

Definition front (l : list (cursors * bool)) : cursors :=
  match l with
  | [] => []
  | (c, _) :: _ => c
  end.

(** What [next] leaves once the top cursor is exhausted. *)
Definition after_pop (rest : cursors) : cursors :=
  match rest with
  | [] => []
  | p :: rest' => incr p :: rest'
  end.

(** ** The invariant of the traversal stack *)

(** The stack is a path from the root: every cursor under the top rests on a
    module-typed slot of its module, and that slot holds the module of the
    cursor above it. *)
Inductive linked (root : Module) : cursors -> Prop :=
  | linked_root i : linked root [mkCursor root i]
  | linked_push sub j t rest a :
      linked root (t :: rest) ->
      attribute_at (module_ t) (i_ t) = Ok a ->
      is_module (getType a) = true ->
      getValue a = _ivalue sub ->
      linked root (mkCursor sub j :: t :: rest).

Definition top_in_bounds (cs : cursors) : Prop :=
  match cs with
  | [] => True
  | t :: rest =>
      -1 <= i_ t <= Z.of_nat (numAttributes (module_ t)) /\
      (i_ t = -1 -> rest = [])
  end.

Definition Inv (root : Module) (cs : cursors) : Prop :=
  cs = [] \/ (linked root cs /\ top_in_bounds cs).

(** The states the iterator passes through: the initial stack of the
    constructor, and what [next] makes of a visited state; the index counts
    the steps. *)
Inductive visited (root : Module) (recurse inc : bool)
  : nat -> cursors -> Prop :=
  | visited_init :
      visited root recurse inc 0 [mkCursor root (if inc then -1 else 0)]
  | visited_next k cs cs' :
      visited root recurse inc k cs -> next recurse cs = Ok cs' ->
      visited root recurse inc (S k) cs'.

(** ** Iterators reachable through the public interface *)

(** [begin()] and then any number of [operator++]. *)
Inductive reachable (P : Policy) (root : Module) (recurse inc : bool)
  : nat -> slot_iterator_impl -> Prop :=
  | reachable_begin fuel it :
      make_iterator P fuel root recurse inc = Ok it ->
      reachable P root recurse inc 0 it
  | reachable_incr k it fuel it' :
      reachable P root recurse inc k it -> next_valid P fuel it = Ok it' ->
      reachable P root recurse inc (S k) it'.

(** The same list object at a later time: [begin()] and [end()] leave it as
    it is, [size()] may have filled its cache. *)
Inductive later (P : Policy) : slot_list_impl -> slot_list_impl -> Prop :=
  | later_same l : later P l l
  | later_size l l1 fuel n l2 :
      later P l l1 -> size P fuel l1 = Ok (n, l2) -> later P l l2.

(** ** Auxiliary notions of the statements *)

(** The kind of value the projection of a policy expects. *)
Fixpoint expects (P : Policy) (v : IValue) : bool :=
  match P with
  | ModulePolicy => isObject v
  | ParameterPolicy => isTensor v
  | BufferPolicy => isTensor v
  | AttributePolicy => true
  | NamedPolicy P' => expects P' v
  end.

(** The fragments after the first, each behind its dot. *)
Definition dotted_tail (names : list string) : string :=
  fold_right (fun n acc => ("." ++ n ++ acc)%string) EmptyString names.

(** ** Induction over nested containers *)

Section IValueInduction.

Variable Q : IValue -> Prop.
Hypothesis HNone : Q IVNone.
Hypothesis HInt : forall z, Q (IVInt z).
Hypothesis HTensor : forall t, Q (IVTensor t).
Hypothesis HObject :
  forall ss, Forall (fun a => Q (getValue a)) ss -> Q (IVObject ss).

Fixpoint IValue_nested_ind (v : IValue) : Q v :=
  match v with
  | IVNone => HNone
  | IVInt z => HInt z
  | IVTensor t => HTensor t
  | IVObject ss =>
      HObject ss
        ((fix all (l : list (Attribute IValue))
            : Forall (fun a => Q (getValue a)) l :=
            match l with
            | [] => Forall_nil _
            | a :: l' =>
                Forall_cons a (IValue_nested_ind (getValue a)) (all l')
            end) ss)
  end.

End IValueInduction.

(** ** The elements of a list, read off the tree *)

(** What a policy makes of a slot value under a given name: [create] sees
    the cursors only through the name they spell. *)
Fixpoint project (P : Policy) (n : string) (v : IValue)
  : result (value_type P) :=
  match P with
  | ModulePolicy => toObject v
  | ParameterPolicy => toTensor v
  | BufferPolicy => toTensor v
  | AttributePolicy => Ok v
  | NamedPolicy P' => x <- project P' n v ;; Ok (mkNamed n x)
  end.

(** Pre-order over the slots [suf] of a container reached by the slot names
    [path]: each accepted slot, then what lies inside it when it is
    descended into, then the slots after it. *)
Fixpoint collect_slots (P : Policy) (recurse : bool)
  (sub : IValue -> list string -> result (list (value_type P)))
  (path : list string) (suf : list (Attribute IValue))
  : result (list (value_type P)) :=
  match suf with
  | [] => Ok []
  | a :: suf' =>
      let path' := path ++ [getName a] in
      x <- (if policy_valid P a
            then y <- project P (String.concat "."%string path') (getValue a) ;;
                 Ok [y]
            else Ok []) ;;
      ys <- (if recurse && is_module (getType a)
             then sub (getValue a) path' else Ok []) ;;
      zs <- collect_slots P recurse sub path suf' ;;
      Ok (x ++ ys ++ zs)
  end.

Fixpoint collect (P : Policy) (recurse : bool) (v : IValue)
  (path : list string) : result (list (value_type P)) :=
  match v with
  | IVObject ss => collect_slots P recurse (collect P recurse) path ss
  | _ => Err TypeMismatch
  end.

(** The elements of a list: the root under the empty name when it is
    included, then the pre-order of its slots. *)
Definition collect_list (P : Policy) (root : Module) (recurse inc : bool)
  : result (list (value_type P)) :=
  if inc then
    x <- project P EmptyString (_ivalue root) ;;
    xs <- collect P recurse (_ivalue root) [] ;;
    Ok (x :: xs)
  else collect P recurse (_ivalue root) [].

(** The containers reachable from a value that is a container, itself
    included. *)
Fixpoint total_modules (v : IValue) : nat :=
  match v with
  | IVObject ss =>
      S (list_sum (map (fun a => if is_module (getType a)
                                 then total_modules (getValue a) else O) ss))
  | _ => O
  end.

(** The policies whose [create] converts to a tensor. *)
Fixpoint yields_tensor (P : Policy) : bool :=
  match P with
  | ParameterPolicy => true
  | BufferPolicy => true
  | NamedPolicy P' => yields_tensor P'
  | _ => false
  end.

(** The policies whose [valid] tests what their [create] needs of the slot
    value: [ParameterPolicy] asks [isTensor], [AttributePolicy] needs
    nothing. *)
Fixpoint valid_tests_value (P : Policy) : bool :=
  match P with
  | ParameterPolicy => true
  | AttributePolicy => true
  | NamedPolicy P' => valid_tests_value P'
  | _ => false
  end.

(** The slots a policy accepts among the slots of the containers reachable
    from a value that is a container. *)
Fixpoint total_accepted (P : Policy) (v : IValue) : nat :=
  match v with
  | IVObject ss =>
      list_sum (map (fun a => ((if policy_valid P a then 1 else 0)
                               + (if is_module (getType a)
                                  then total_accepted P (getValue a)
                                  else 0))%nat) ss)
  | _ => O
  end.

(** [k] steps of [next]. *)
Fixpoint steps (recurse : bool) (k : nat) (cs : cursors) : result cursors :=
  match k with
  | O => Ok cs
  | S k' => cs' <- next recurse cs ;; steps recurse k' cs'
  end.

(** The number of steps of [next] a whole traversal takes: one per slot it
    passes and one to leave each container it has entered, and one more to
    step off the root when the root is included. *)
Definition traversal_steps (root : Module) (recurse inc : bool) : nat :=
  ((if inc then 1 else 0) +
   (if recurse
    then total_slots (_ivalue root) + total_modules (_ivalue root)
    else num_slots root + 1))%nat.

(** * c10::MaybeOwned (c10/util/MaybeOwned.h)

    A borrowed or owned [T] in a union.  The union keeps track of which
    member is alive, so that reading the member that is not alive, destroying
    [own_] twice and constructing over a live [own_] show up as faults. *)

Module c10.

Inductive fault : Type :=
  | InactiveMember   (* the union member read or destroyed is not alive *)
  | OverwriteLive    (* a member is written over [own_] that is alive *)
  | NullBorrow       (* the assertion [borrow_ != nullptr] fails *)
  | DanglingBorrow   (* the borrowed object is not there *)
  | FlagMismatch.    (* the assertion [isBorrowed_ == rhs.isBorrowed_] fails *)

Inductive outcome (A : Type) : Type :=
  | Done (a : A)
  | Fault (f : fault).
Arguments Done {A} a.
Arguments Fault {A} f.

Definition and_then {A B : Type} (r : outcome A) (k : A -> outcome B)
  : outcome B :=
  match r with
  | Done a => k a
  | Fault f => Fault f
  end.

Notation "x <~ r ;; k" := (and_then r (fun x => k))
  (at level 61, r at next level, right associativity).

Section MaybeOwned.

(** The value type: copying a [T] gives an equal [T]; [moved_from t] is what
    moving out of [t] leaves behind. *)
Variable T : Type.
Variable moved_from : T -> T.

(** Borrows point into a memory of [T] objects owned by others. *)
Definition address : Type := nat.
Definition memory : Type := address -> option T.

Inductive members : Type :=
  | borrow_ (p : option address)   (* [const T*], [None] is [nullptr] *)
  | own_ (t : T)
  | no_member.                     (* [own_] destroyed, nothing constructed *)

Record MaybeOwned : Type := mkMaybeOwned {
  isBorrowed_ : bool;
  union_ : members
}.

Definition get_borrow (m : MaybeOwned) : outcome (option address) :=
  match union_ m with
  | borrow_ p => Done p
  | _ => Fault InactiveMember
  end.

Definition get_own (m : MaybeOwned) : outcome T :=
  match union_ m with
  | own_ t => Done t
  | _ => Fault InactiveMember
  end.

(** [own_.~T()] *)
Definition destroy_own (m : MaybeOwned) : outcome members :=
  match union_ m with
  | own_ _ => Done no_member
  | _ => Fault InactiveMember
  end.

(** [new (&own_) T(t)] in the storage [u]. *)
Definition construct_own (u : members) (t : T) : outcome members :=
  match u with
  | own_ _ => Fault OverwriteLive
  | _ => Done (own_ t)
  end.

(** [borrow_ = p] in the storage [u]. *)
Definition set_borrow (u : members) (p : option address) : outcome members :=
  match u with
  | own_ _ => Fault OverwriteLive
  | _ => Done (borrow_ p)
  end.

(** [MaybeOwned()] *)
Definition default : MaybeOwned := mkMaybeOwned true (borrow_ None).

(** [borrowed(t)], [t] living at address [a]. *)
Definition borrowed (a : address) : MaybeOwned :=
  mkMaybeOwned true (borrow_ (Some a)).

(** [owned(std::move(t))]: the new object, and what is left of [t]. *)
Definition owned (t : T) : MaybeOwned * T :=
  (mkMaybeOwned false (own_ t), moved_from t).

(** The copy constructor. *)
Definition copy (rhs : MaybeOwned) : outcome MaybeOwned :=
  if isBorrowed_ rhs then
    p <~ get_borrow rhs ;; Done (mkMaybeOwned (isBorrowed_ rhs) (borrow_ p))
  else
    t <~ get_own rhs ;; Done (mkMaybeOwned (isBorrowed_ rhs) (own_ t)).

Definition assert_same_flag (l rhs : MaybeOwned) : outcome MaybeOwned :=
  if Bool.eqb (isBorrowed_ l) (isBorrowed_ rhs) then Done l
  else Fault FlagMismatch.

(** [operator=(const MaybeOwned&)] *)
Definition copy_assign (lhs rhs : MaybeOwned) : outcome MaybeOwned :=
  l <~ (if negb (isBorrowed_ lhs) then
          if isBorrowed_ rhs then
            u <~ destroy_own lhs ;;
            p <~ get_borrow rhs ;;
            u' <~ set_borrow u p ;;
            Done (mkMaybeOwned true u')
          else
            _ <~ get_own lhs ;;
            t <~ get_own rhs ;;
            Done (mkMaybeOwned (isBorrowed_ lhs) (own_ t))
        else
          if isBorrowed_ rhs then
            p <~ get_borrow rhs ;;
            u' <~ set_borrow (union_ lhs) p ;;
            Done (mkMaybeOwned (isBorrowed_ lhs) u')
          else
            t <~ get_own rhs ;;
            u' <~ construct_own (union_ lhs) t ;;
            Done (mkMaybeOwned false u')) ;;
  assert_same_flag l rhs.

(** The move constructor: the new object and what is left of [rhs]. *)
Definition move (rhs : MaybeOwned) : outcome (MaybeOwned * MaybeOwned) :=
  if isBorrowed_ rhs then
    p <~ get_borrow rhs ;;
    Done (mkMaybeOwned (isBorrowed_ rhs) (borrow_ p), rhs)
  else
    t <~ get_own rhs ;;
    Done (mkMaybeOwned (isBorrowed_ rhs) (own_ t),
          mkMaybeOwned (isBorrowed_ rhs) (own_ (moved_from t))).

(** [operator=(MaybeOwned&&)]: the assigned object and what is left of
    [rhs]. *)
Definition move_assign (lhs rhs : MaybeOwned)
  : outcome (MaybeOwned * MaybeOwned) :=
  r <~ (if negb (isBorrowed_ lhs) then
          if isBorrowed_ rhs then
            u <~ destroy_own lhs ;;
            p <~ get_borrow rhs ;;
            u' <~ set_borrow u p ;;
            Done (mkMaybeOwned true u', rhs)
          else
            _ <~ get_own lhs ;;
            t <~ get_own rhs ;;
            Done (mkMaybeOwned (isBorrowed_ lhs) (own_ t),
                  mkMaybeOwned (isBorrowed_ rhs) (own_ (moved_from t)))
        else
          if isBorrowed_ rhs then
            p <~ get_borrow rhs ;;
            u' <~ set_borrow (union_ lhs) p ;;
            Done (mkMaybeOwned (isBorrowed_ lhs) u', rhs)
          else
            t <~ get_own rhs ;;
            u' <~ construct_own (union_ lhs) t ;;
            Done (mkMaybeOwned false u',
                  mkMaybeOwned (isBorrowed_ rhs) (own_ (moved_from t)))) ;;
  l <~ assert_same_flag (fst r) rhs ;;
  Done (l, snd r).

(** [~MaybeOwned()]: what is left in the storage. *)
Definition destructor (m : MaybeOwned) : outcome members :=
  if negb (isBorrowed_ m) then destroy_own m else Done (union_ m).

Definition load (mem : memory) (p : option address) : outcome T :=
  match p with
  | None => Fault NullBorrow
  | Some a =>
      match mem a with
      | Some t => Done t
      | None => Fault DanglingBorrow
      end
  end.

(** [operator*() const &] *)
Definition deref (mem : memory) (m : MaybeOwned) : outcome T :=
  if isBorrowed_ m then p <~ get_borrow m ;; load mem p
  else get_own m.

(** [operator*() &&]: the [T] handed out and what is left of the object. *)
Definition take (mem : memory) (m : MaybeOwned) : outcome (T * MaybeOwned) :=
  if isBorrowed_ m then
    p <~ get_borrow m ;; t <~ load mem p ;; Done (t, m)
  else
    t <~ get_own m ;;
    Done (t, mkMaybeOwned (isBorrowed_ m) (own_ (moved_from t))).

(** The flag tells which member of the union is alive. *)
Definition well_formed (m : MaybeOwned) : bool :=
  match union_ m with
  | borrow_ _ => isBorrowed_ m
  | own_ _ => negb (isBorrowed_ m)
  | no_member => false
  end.

End MaybeOwned.

Arguments borrow_ {T} p.
Arguments own_ {T} t.
Arguments no_member {T}.
Arguments mkMaybeOwned {T} _ _.
Arguments isBorrowed_ {T} _.
Arguments union_ {T} _.
Arguments default {T}.
Arguments borrowed {T} a.
Arguments copy {T} rhs.
Arguments copy_assign {T} lhs rhs.
Arguments destructor {T} m.
Arguments deref {T} mem m.
Arguments well_formed {T} m.

End c10.

(** ** Sample trees *)

Module Samples.

Definition tensor_type : TypePtr := mkType false true.
Definition module_type : TypePtr := mkType true false.
Definition int_type : TypePtr := mkType false false.

(** [b{c: buffer}] *)
Definition sub_b : list (Attribute IValue) :=
  [mkAttribute "c"%string tensor_type false (IVTensor 2%nat)].

(** [root{a: parameter, b: submodule{c: buffer}, n: int}] *)
Definition root : Module :=
  mkModule
    [mkAttribute "a"%string tensor_type true (IVTensor 1%nat);
     mkAttribute "b"%string module_type false (IVObject sub_b);
     mkAttribute "n"%string int_type false (IVInt 7)].

(** A container without slots. *)
Definition empty_module : Module := mkModule [].

(** A module-typed slot that holds no object. *)
Definition broken : Module :=
  mkModule [mkAttribute "b"%string module_type false IVNone].

End Samples.

(** ** The model on the sample trees *)

Example named_attributes_of_root :
  elements (NamedPolicy AttributePolicy) 7 (named_attributes Samples.root true)
  = Ok [mkNamed "a"%string (IVTensor 1%nat);
        mkNamed "b"%string (IVObject Samples.sub_b);
        mkNamed "b.c"%string (IVTensor 2%nat);
        mkNamed "n"%string (IVInt 7)].
Proof. reflexivity. Qed.

Example named_modules_of_root :
  elements (NamedPolicy ModulePolicy) 7 (named_modules Samples.root)
  = Ok [mkNamed EmptyString Samples.root;
        mkNamed "b"%string (mkModule Samples.sub_b)].
Proof. reflexivity. Qed.

Example parameters_of_root :
  elements ParameterPolicy 7 (parameters Samples.root true) = Ok [1%nat].
Proof. reflexivity. Qed.

Example buffers_of_root :
  elements BufferPolicy 7 (buffers Samples.root true) = Ok [2%nat] /\
  elements BufferPolicy 7 (buffers Samples.root false) = Ok [].
Proof. split; reflexivity. Qed.

Example children_size :
  size ModulePolicy 7 (children Samples.root)
  = Ok (1%nat, mkList Samples.root false false (Some 1%nat)).
Proof. reflexivity. Qed.

Example attributes_size_is_cached_at_construction :
  size_ (attributes Samples.root false) = Some 3%nat /\
  size_ (attributes Samples.root true) = None.
Proof. split; reflexivity. Qed.

Example descent_into_a_non_object_throws :
  elements AttributePolicy 7 (attributes Samples.broken true)
  = Err TypeMismatch.
Proof. reflexivity. Qed.

Example budget_too_small :
  elements AttributePolicy 3 (attributes Samples.root true) = Err OutOfFuel.
Proof. reflexivity. Qed.

(** ** Facts about runs of [next] *)

Section Walks.

Variable P : Policy.
Variable recurse : bool.

Lemma Walk_app cs l1 cs1 l2 cs2 :
  Walk P recurse cs l1 cs1 -> Walk P recurse cs1 l2 cs2 ->
  Walk P recurse cs (l1 ++ l2) cs2.
Proof.
  induction 1 as [|c b c1 l c2 Hat Hnext Hw IH]; intros H2; simpl.
  - exact H2.
  - econstructor; eauto.
Qed.

Lemma skip_length l : (List.length (skip l) <= List.length l)%nat.
Proof.
  induction l as [|[c b] l IH]; simpl; [lia|].
  destruct b; simpl; lia.
Qed.

Lemma skip_idem l : skip (skip l) = skip l.
Proof.
  induction l as [|[c b] l IH]; simpl; [reflexivity|].
  destruct b; simpl; [reflexivity | exact IH].
Qed.

Lemma stops_skip l : stops (skip l) = stops l.
Proof.
  unfold stops. induction l as [|[c b] l IH]; simpl; [reflexivity|].
  destruct b; simpl; [reflexivity | exact IH].
Qed.

Lemma at_element_nonempty cs b : at_element P cs = Ok b -> cs <> [].
Proof. intros H ->. discriminate H. Qed.

Lemma while_walk l : forall cs fuel,
  Walk P recurse cs l [] -> (List.length l < fuel)%nat ->
  while_not_valid_next P fuel recurse cs = Ok (front (skip l)) /\
  Walk P recurse (front (skip l)) (skip l) [].
Proof.
  induction l as [|[c b] l IH]; intros cs fuel Hw Hf.
  - inversion Hw; subst. destruct fuel; [simpl in Hf; lia|].
    simpl. split; [reflexivity | constructor].
  - inversion Hw as [|c0 b0 cs1 l0 cs2 Hat Hnext Hw']; subst.
    destruct fuel as [|fuel]; [simpl in Hf; lia|].
    simpl in Hf.
    destruct c as [|t rest]; [discriminate Hat|].
    unfold at_element in Hat. cbn [while_not_valid_next skip].
    destruct (return_module (t :: rest)) as [rm|e]; [|discriminate Hat].
    cbn [bind] in *. destruct rm.
    + injection Hat as Hb. subst b. split; [reflexivity | exact Hw].
    + rewrite Hat. cbn [bind]. destruct b.
      * split; [reflexivity | exact Hw].
      * rewrite Hnext. cbn [bind]. apply IH; [exact Hw' | lia].
Qed.

Lemma for_each_walk n : forall l cs fuel acc,
  Walk P recurse cs l [] -> skip l = l ->
  (List.length l < fuel)%nat -> (List.length l < n)%nat ->
  for_each P fuel n (mkIter cs recurse) acc =
  (xs <- mapM (fun c => deref P (mkIter c recurse)) (stops l) ;;
   Ok (acc ++ xs)).
Proof.
  induction n as [|n IH]; intros l cs fuel acc Hw Hs Hf Hn; [lia|].
  destruct l as [|[c b] l].
  - inversion Hw; subst. simpl. rewrite app_nil_r. reflexivity.
  - inversion Hw as [|c0 b0 cs1 l0 cs2 Hat Hnext Hw']; subst.
    assert (b = true) as ->.
    { destruct b; [reflexivity|]. simpl in Hs.
      pose proof (skip_length l) as Hl. rewrite Hs in Hl. simpl in Hl. lia. }
    destruct c as [|t rest]; [discriminate Hat|].
    simpl in Hf, Hn.
    unfold stops. cbn [for_each neq cursors_ empty end_iterator Bool.eqb negb
                       filter snd map fst mapM].
    fold (stops l).
    destruct (deref P (mkIter (t :: rest) recurse)) as [s|e];
      cbn [bind]; [|reflexivity].
    unfold next_valid. cbn [cursors_ recurse_]. rewrite Hnext. cbn [bind].
    assert (Hf' : (List.length l < fuel)%nat) by lia.
    destruct (while_walk l cs1 fuel Hw' Hf') as [Hwh Hw2].
    rewrite Hwh. cbn [bind].
    rewrite (IH (skip l) (front (skip l)) fuel (acc ++ [s]) Hw2 (skip_idem l)).
    + rewrite stops_skip.
      destruct (mapM (fun c => deref P (mkIter c recurse)) (stops l));
        cbn [bind]; [|reflexivity].
      rewrite <- app_assoc. reflexivity.
    + pose proof (skip_length l). lia.
    + pose proof (skip_length l). lia.
Qed.

(** Exhaustive iteration yields [*it] at the stops of the run, in order. *)
Lemma elements_walk root (inc : bool) sz l fuel :
  Walk P recurse [mkCursor root (if inc then -1 else 0)] l [] ->
  (List.length l < fuel)%nat ->
  elements P fuel (mkList root recurse inc sz) =
  mapM (fun c => deref P (mkIter c recurse)) (stops l).
Proof.
  intros Hw Hf. unfold elements, begin_, make_iterator.
  cbn [list_module_ list_recurse_ list_return_module_].
  destruct (while_walk l _ fuel Hw Hf) as [Hwh Hw2].
  rewrite Hwh. cbn [bind].
  rewrite (for_each_walk fuel (skip l) (front (skip l)) fuel [] Hw2
             (skip_idem l)).
  - rewrite stops_skip.
    destruct (mapM (fun c => deref P (mkIter c recurse)) (stops l));
      reflexivity.
  - pose proof (skip_length l). lia.
  - pose proof (skip_length l). lia.
Qed.

End Walks.

(** ** The run of [next] over a structurally valid tree *)

Section WalkTree.

Variable P : Policy.
Variable recurse : bool.

Lemma cur_slot t rest :
  i_ t <> -1 -> cur (t :: rest) = getSlot (module_ t) (i_ t).
Proof.
  intros H. unfold cur. cbn [top bind].
  destruct (Z.eqb_spec (i_ t) (-1)) as [E|_]; [contradiction | reflexivity].
Qed.

Lemma attribute_at_app m pre a suf :
  slots m = pre ++ a :: suf ->
  attribute_at m (Z.of_nat (List.length pre)) = Ok a.
Proof.
  intros H. unfold attribute_at.
  destruct (Z.ltb_spec (Z.of_nat (List.length pre)) 0) as [Hlt|_]; [lia|].
  rewrite Nat2Z.id, H, nth_error_app2 by lia.
  rewrite Nat.sub_diag. reflexivity.
Qed.

Lemma at_element_slot m rest pre a suf :
  slots m = pre ++ a :: suf ->
  at_element P (mkCursor m (Z.of_nat (List.length pre)) :: rest)
  = Ok (policy_valid P a).
Proof.
  intros H. unfold at_element, return_module, valid. cbn [top bind i_ module_].
  destruct (Z.eqb_spec (Z.of_nat (List.length pre)) (-1)) as [E|_]; [lia|].
  unfold numAttributes. rewrite H, length_app. cbn [List.length].
  destruct (Z.ltb_spec (Z.of_nat (List.length pre))
              (Z.of_nat (List.length pre + S (List.length suf)))) as [_|Hge];
    [|lia].
  rewrite (attribute_at_app m pre a suf H). reflexivity.
Qed.

Lemma at_element_exhausted m rest :
  at_element P (mkCursor m (Z.of_nat (numAttributes m)) :: rest) = Ok false.
Proof.
  unfold at_element, return_module, valid. cbn [top bind i_ module_].
  destruct (Z.eqb_spec (Z.of_nat (numAttributes m)) (-1)) as [E|_]; [lia|].
  rewrite Z.ltb_irrefl. reflexivity.
Qed.

Lemma next_exhausted m rest :
  next recurse (mkCursor m (Z.of_nat (numAttributes m)) :: rest)
  = Ok (after_pop rest).
Proof.
  unfold next. cbn [i_ module_].
  destruct (Z.eqb_spec (Z.of_nat (numAttributes m)) (-1)) as [E|_]; [lia|].
  destruct (Z.geb_spec (Z.of_nat (numAttributes m))
              (Z.of_nat (numAttributes m))) as [_|Hlt]; [|lia].
  destruct rest; reflexivity.
Qed.

(** [next] at a slot: it descends into a module-typed slot that holds an
    object when recursion is on, and moves to the next slot otherwise. *)
Lemma next_slot m rest pre a suf :
  slots m = pre ++ a :: suf ->
  next recurse (mkCursor m (Z.of_nat (List.length pre)) :: rest)
  = if recurse && is_module (getType a) then
      sub <- toModule (getValue a) ;;
      Ok (mkCursor sub 0 :: mkCursor m (Z.of_nat (List.length pre)) :: rest)
    else Ok (mkCursor m (Z.of_nat (S (List.length pre))) :: rest).
Proof.
  intros H. unfold next. cbn [i_ module_].
  destruct (Z.eqb_spec (Z.of_nat (List.length pre)) (-1)) as [E|_]; [lia|].
  unfold numAttributes. rewrite H, length_app. cbn [List.length].
  destruct (Z.geb_spec (Z.of_nat (List.length pre))
              (Z.of_nat (List.length pre + S (List.length suf)))) as [Hge|_];
    [lia|].
  rewrite cur_slot by (cbn [i_]; lia).
  unfold getAttribute, getSlot. cbn [i_ module_].
  rewrite (attribute_at_app m pre a suf H).
  cbn [bind]. unfold incr. cbn [i_ module_].
  replace (Z.of_nat (List.length pre) + 1) with (Z.of_nat (S (List.length pre)))
    by lia.
  destruct recurse; cbn [andb]; [|reflexivity].
  destruct (is_module (getType a)); reflexivity.
Qed.

Lemma walk_slots_Walk ss rest : forall suf pre,
  ss = pre ++ suf ->
  Forall (fun a =>
    (recurse = true -> structurally_valid (getValue a) = true) ->
    forall ss' rest', getValue a = IVObject ss' ->
    Walk P recurse (mkCursor (mkModule ss') 0 :: rest')
      (walk P recurse (getValue a) rest') (after_pop rest')) suf ->
  (recurse = true ->
   forallb (fun a => slot_conforms a &&
              (if is_module (getType a) then structurally_valid (getValue a)
               else true)) suf = true) ->
  Walk P recurse (mkCursor (mkModule ss) (Z.of_nat (List.length pre)) :: rest)
    (walk_slots P recurse (walk P recurse) (mkModule ss) rest suf
       (List.length pre))
    (after_pop rest).
Proof.
  induction suf as [|a suf IH]; intros pre Hss Hall Hwf.
  - cbn [walk_slots].
    assert (Hn : List.length pre = numAttributes (mkModule ss)).
    { unfold numAttributes. cbn [slots]. rewrite Hss, app_nil_r. reflexivity. }
    rewrite Hn.
    eapply Walk_step;
      [apply at_element_exhausted | apply next_exhausted | constructor].
  - cbn [walk_slots].
    assert (Hsl : slots (mkModule ss) = pre ++ a :: suf) by exact Hss.
    inversion Hall as [|a0 l0 Ha Hall']; subst a0 l0.
    assert (Hrest :
      Walk P recurse
        (mkCursor (mkModule ss) (Z.of_nat (S (List.length pre))) :: rest)
        (walk_slots P recurse (walk P recurse) (mkModule ss) rest suf
           (S (List.length pre)))
        (after_pop rest)).
    { replace (S (List.length pre)) with (List.length (pre ++ [a]))
        by (rewrite length_app; simpl; lia).
      apply IH.
      - rewrite <- app_assoc. exact Hss.
      - exact Hall'.
      - intros Hr. specialize (Hwf Hr). cbn [forallb] in Hwf.
        apply andb_true_iff in Hwf. apply Hwf. }
    destruct (recurse && is_module (getType a)) eqn:Hdesc.
    + apply andb_true_iff in Hdesc. destruct Hdesc as [Hr Hm].
      specialize (Hwf Hr). cbn [forallb] in Hwf.
      apply andb_true_iff in Hwf. destruct Hwf as [Hwa _].
      apply andb_true_iff in Hwa. destruct Hwa as [Hconf Hsv].
      rewrite Hm in Hsv.
      unfold slot_conforms in Hconf. rewrite Hm in Hconf.
      apply andb_true_iff in Hconf. destruct Hconf as [Hobj _].
      cbn [implb] in Hobj.
      destruct (getValue a) as [| |t|ss'] eqn:Hv; try discriminate Hobj.
      eapply Walk_step.
      * apply (at_element_slot _ rest pre a suf Hsl).
      * rewrite (next_slot _ rest pre a suf Hsl), Hr, Hm; cbn [andb]; rewrite Hv. reflexivity.
      * eapply Walk_app; [|exact Hrest].
        replace (mkCursor (mkModule ss) (Z.of_nat (S (List.length pre))) :: rest)
          with (after_pop
                  (mkCursor (mkModule ss) (Z.of_nat (List.length pre)) :: rest)).
        -- apply Ha; [intros _; exact Hsv | reflexivity].
        -- cbn [after_pop]. unfold incr. cbn [i_ module_]. f_equal. f_equal. lia.
    + eapply Walk_step.
      * apply (at_element_slot _ rest pre a suf Hsl).
      * rewrite (next_slot _ rest pre a suf Hsl), Hdesc. reflexivity.
      * exact Hrest.
Qed.

(** From the first slot of a container to the moment its cursor is popped,
    [next] passes exactly through [walk]. *)
Lemma walk_Walk : forall v,
  (recurse = true -> structurally_valid v = true) ->
  forall ss rest, v = IVObject ss ->
  Walk P recurse (mkCursor (mkModule ss) 0 :: rest) (walk P recurse v rest)
    (after_pop rest).
Proof.
  induction v as [| | |ss0 IH] using IValue_nested_ind;
    intros Hwf ss rest Hv; try discriminate Hv.
  injection Hv as <-. cbn [walk].
  apply (walk_slots_Walk ss0 rest ss0 []); [reflexivity | exact IH | exact Hwf].
Qed.

(** The whole run of an iteration started by the constructor. *)
Lemma positions_Walk root (inc : bool) :
  (recurse = true -> structurally_valid (_ivalue root) = true) ->
  Walk P recurse [mkCursor root (if inc then -1 else 0)]
    (positions P root recurse inc) [].
Proof.
  intros Hwf. unfold positions.
  assert (Hw : Walk P recurse [mkCursor root 0]
                 (walk P recurse (_ivalue root) []) []).
  { destruct root as [ss]. apply (walk_Walk (IVObject ss) Hwf ss []).
    reflexivity. }
  destruct inc; [|exact Hw].
  cbn [app]. eapply Walk_step; [reflexivity | reflexivity | exact Hw].
Qed.

End WalkTree.

(** ** General facts about the loops *)

Section Loops.

Variable P : Policy.

Lemma mapM_length {A B : Type} (f : A -> result B) l ys :
  mapM f l = Ok ys -> List.length ys = List.length l.
Proof.
  revert ys. induction l as [|x l IH]; intros ys H; simpl in H.
  - injection H as <-. reflexivity.
  - destruct (f x) as [y|e]; [|discriminate H]. cbn [bind] in H.
    destruct (mapM f l) as [zs|e]; [|discriminate H]. cbn [bind] in H.
    injection H as <-. simpl. f_equal. apply IH. reflexivity.
Qed.

Lemma mapM_total {A B : Type} (f : A -> result B) l :
  Forall (fun x => exists y, f x = Ok y) l -> exists ys, mapM f l = Ok ys.
Proof.
  induction 1 as [|x l [y Hy] _ [ys Hys]]; simpl.
  - eexists; reflexivity.
  - rewrite Hy, Hys. eexists; reflexivity.
Qed.

(** A larger step budget does not change a result. *)
Lemma while_mono recurse fuel : forall fuel' cs r,
  while_not_valid_next P fuel recurse cs = Ok r -> (fuel <= fuel')%nat ->
  while_not_valid_next P fuel' recurse cs = Ok r.
Proof.
  induction fuel as [|fuel IH]; intros fuel' cs r H Hle; [discriminate H|].
  destruct fuel' as [|fuel']; [lia|].
  cbn [while_not_valid_next] in *.
  destruct cs as [|t rest]; [exact H|].
  destruct (return_module (t :: rest)) as [rm|e]; [|discriminate H].
  cbn [bind] in *. destruct rm; [exact H|].
  destruct (valid P (t :: rest)) as [ok|e]; [|discriminate H].
  cbn [bind] in *. destruct ok; [exact H|].
  destruct (next recurse (t :: rest)) as [cs'|e]; [|discriminate H].
  cbn [bind] in *. apply IH; [exact H | lia].
Qed.

Lemma next_valid_mono fuel fuel' it r :
  next_valid P fuel it = Ok r -> (fuel <= fuel')%nat ->
  next_valid P fuel' it = Ok r.
Proof.
  unfold next_valid. intros H Hle.
  destruct (cursors_ it) as [|t rest]; [exact H|].
  destruct (next (recurse_ it) (t :: rest)) as [cs1|e]; [|discriminate H].
  cbn [bind] in *.
  destruct (while_not_valid_next P fuel (recurse_ it) cs1) as [cs2|e] eqn:E;
    [|discriminate H].
  rewrite (while_mono _ _ fuel' _ _ E Hle). exact H.
Qed.

Lemma for_each_mono fuel fuel' n : forall n' it acc r,
  for_each P fuel n it acc = Ok r -> (fuel <= fuel')%nat -> (n <= n')%nat ->
  for_each P fuel' n' it acc = Ok r.
Proof.
  induction n as [|n IH]; intros n' it acc r H Hf Hn; [discriminate H|].
  destruct n' as [|n']; [lia|].
  cbn [for_each] in *.
  destruct (neq it end_iterator); [|exact H].
  destruct (deref P it) as [s|e]; [|discriminate H]. cbn [bind] in *.
  destruct (next_valid P fuel it) as [it'|e] eqn:E; [|discriminate H].
  rewrite (next_valid_mono _ fuel' _ _ E Hf). cbn [bind] in *.
  apply IH; [exact H | exact Hf | lia].
Qed.

Lemma elements_mono fuel fuel' l xs :
  elements P fuel l = Ok xs -> (fuel <= fuel')%nat ->
  elements P fuel' l = Ok xs.
Proof.
  unfold elements, begin_, make_iterator. intros H Hle.
  destruct (while_not_valid_next P fuel (list_recurse_ l) _) as [cs|e] eqn:E;
    [|discriminate H].
  rewrite (while_mono _ _ fuel' _ _ E Hle). cbn [bind] in *.
  apply (for_each_mono fuel fuel' fuel); assumption.
Qed.

(** Two runs that both return give the same elements. *)
Lemma elements_deterministic f1 f2 l xs ys :
  elements P f1 l = Ok xs -> elements P f2 l = Ok ys -> xs = ys.
Proof.
  intros H1 H2.
  apply (elements_mono f1 (Nat.max f1 f2)) in H1; [|lia].
  apply (elements_mono f2 (Nat.max f1 f2)) in H2; [|lia].
  congruence.
Qed.

(** [begin()] reads the root and the two flags only, not the cached size. *)
Lemma elements_ignores_cache fuel m recurse inc sz sz' :
  elements P fuel (mkList m recurse inc sz)
  = elements P fuel (mkList m recurse inc sz').
Proof. reflexivity. Qed.

(** Every stop of a run is a position the loop test accepts. *)
Lemma Walk_stops recurse cs l cs' :
  Walk P recurse cs l cs' ->
  Forall (fun c => at_element P c = Ok true) (stops l).
Proof.
  unfold stops. induction 1 as [|c b c1 l c2 Hat Hnext Hw IH]; simpl.
  - constructor.
  - destruct b; simpl; [constructor; assumption | assumption].
Qed.

(** At a stop that is not the sentinel the top cursor names a slot that the
    policy accepts, and [cur()] is that slot's value. *)
Lemma at_element_accepted cs :
  at_element P cs = Ok true ->
  exists t rest,
    cs = t :: rest /\
    (i_ t = -1 \/
     exists a, attribute_at (module_ t) (i_ t) = Ok a /\
               policy_valid P a = true /\ i_ t <> -1).
Proof.
  destruct cs as [|t rest]; [discriminate|].
  unfold at_element, return_module, valid. cbn [top bind].
  intros H. exists t, rest. split; [reflexivity|].
  destruct (Z.eqb_spec (i_ t) (-1)) as [E|E]; [left; exact E|right].
  destruct (i_ t <? Z.of_nat (numAttributes (module_ t))); [|discriminate H].
  destruct (attribute_at (module_ t) (i_ t)) as [a|e]; [|discriminate H].
  cbn [bind] in H. injection H as H. exists a. auto.
Qed.

Lemma cur_accepted cs :
  at_element P cs = Ok true -> exists v, cur cs = Ok v.
Proof.
  intros H. destruct (at_element_accepted cs H) as (t & rest & -> & Hc).
  unfold cur. cbn [top bind].
  destruct Hc as [E|(a & Ha & _ & E)].
  - rewrite E. cbn. eexists; reflexivity.
  - destruct (Z.eqb_spec (i_ t) (-1)) as [E'|_]; [contradiction|].
    unfold getSlot. rewrite Ha. eexists; reflexivity.
Qed.

End Loops.

(** ** Preservation of the stack invariant *)

Section Invariant.

Variable root : Module.

Lemma attribute_at_range m i a :
  attribute_at m i = Ok a -> 0 <= i < Z.of_nat (numAttributes m).
Proof.
  unfold attribute_at, numAttributes.
  destruct (Z.ltb_spec i 0) as [Hlt|Hge]; [discriminate|].
  destruct (nth_error (slots m) (Z.to_nat i)) as [b|] eqn:E; [|discriminate].
  intros _. assert (Hn : nth_error (slots m) (Z.to_nat i) <> None)
    by (rewrite E; discriminate).
  apply nth_error_Some in Hn. lia.
Qed.

Lemma attribute_at_In m i a : attribute_at m i = Ok a -> In a (slots m).
Proof.
  unfold attribute_at. destruct (i <? 0); [discriminate|].
  destruct (nth_error (slots m) (Z.to_nat i)) as [b|] eqn:E; [|discriminate].
  intros H. injection H as <-. eapply nth_error_In; exact E.
Qed.

Lemma linked_set_top t rest j :
  linked root (t :: rest) -> linked root (mkCursor (module_ t) j :: rest).
Proof.
  intros H. inversion H; subst; cbn [module_].
  - constructor.
  - econstructor; eassumption.
Qed.

Lemma linked_below t rest :
  linked root (t :: rest) ->
  Forall (fun c => 0 <= i_ c < Z.of_nat (numAttributes (module_ c))) rest.
Proof.
  revert t. induction rest as [|p rest IH]; intros t H; [constructor|].
  inversion H as [|sub j t0 rest0 a Hl Ha Hm Hv]; subst.
  constructor; [eapply attribute_at_range; exact Ha | eapply IH; exact Hl].
Qed.

Lemma linked_tail t p rest :
  linked root (t :: p :: rest) -> linked root (p :: rest).
Proof. intros H. inversion H; subst. assumption. Qed.

Lemma toModule_ivalue v m : toModule v = Ok m -> v = _ivalue m.
Proof.
  destruct v; try discriminate. intros H. injection H as <-. reflexivity.
Qed.

(** [next] keeps the invariant. *)
Lemma next_Inv recurse cs cs' :
  Inv root cs -> next recurse cs = Ok cs' -> Inv root cs'.
Proof.
  intros [->|[Hl Hb]] Hn; [discriminate Hn|].
  destruct cs as [|t rest]; [discriminate Hn|].
  destruct Hb as [Hb Hs]. unfold next in Hn.
  destruct (Z.eqb_spec (i_ t) (-1)) as [E|E].
  - injection Hn as <-. rewrite (Hs E) in *.
    right. split.
    + apply (linked_set_top t [] (i_ t + 1) Hl).
    + cbn [top_in_bounds incr i_ module_]. split; [lia|]. intros; reflexivity.
  - destruct (Z.geb_spec (i_ t) (Z.of_nat (numAttributes (module_ t))))
      as [Hge|Hlt].
    + destruct rest as [|p rest'].
      * injection Hn as <-. left; reflexivity.
      * injection Hn as <-. right.
        pose proof (linked_below t (p :: rest') Hl) as Hr.
        inversion Hr as [|p0 l0 Hp _]; subst.
        split.
        -- apply (linked_set_top p rest' (i_ p + 1)).
           eapply linked_tail; exact Hl.
        -- cbn [top_in_bounds incr i_ module_]. split; lia.
    + assert (Hincr : Inv root (incr t :: rest)).
      { right. split.
        - apply (linked_set_top t rest (i_ t + 1) Hl).
        - cbn [top_in_bounds incr i_ module_]. split; lia. }
      destruct recurse; [|injection Hn as <-; exact Hincr].
      rewrite (cur_slot t rest E) in Hn.
      unfold getAttribute, getSlot in Hn.
      destruct (attribute_at (module_ t) (i_ t)) as [a|e] eqn:Ha;
        [|discriminate Hn].
      cbn [bind] in Hn.
      destruct (is_module (getType a)) eqn:Hm;
        [|injection Hn as <-; exact Hincr].
      destruct (toModule (getValue a)) as [m|e] eqn:Htm; [|discriminate Hn].
      cbn [bind] in Hn. injection Hn as <-. right. split.
      * eapply linked_push; eauto using toModule_ivalue.
      * cbn [top_in_bounds i_ module_]. split; lia.
Qed.

(** After a step of [next] no cursor is the sentinel. *)
Lemma next_no_sentinel recurse cs cs' :
  Inv root cs -> next recurse cs = Ok cs' -> Forall (fun c => i_ c <> -1) cs'.
Proof.
  intros HI Hn. pose proof (next_Inv recurse cs cs' HI Hn) as HI'.
  destruct HI' as [->|[Hl' Hb']]; [constructor|].
  destruct cs' as [|t' rest']; [constructor|].
  assert (Hrest : Forall (fun c => i_ c <> -1) rest').
  { eapply Forall_impl; [|apply (linked_below t' rest' Hl')].
    cbn. intros c Hc. lia. }
  constructor; [|exact Hrest].
  destruct HI as [->|[Hl Hb]]; [discriminate Hn|].
  destruct cs as [|t rest]; [discriminate Hn|].
  destruct Hb as [Hb Hs]. unfold next in Hn.
  destruct (Z.eqb_spec (i_ t) (-1)) as [E|E].
  { injection Hn as <- <-. cbn. lia. }
  destruct (Z.geb_spec (i_ t) (Z.of_nat (numAttributes (module_ t))))
    as [Hge|Hlt].
  { destruct rest as [|p r]; [discriminate Hn|]. injection Hn as <- <-.
    pose proof (linked_below t (p :: r) Hl) as Hr.
    inversion Hr; subst. cbn. lia. }
  assert (Hi : i_ (incr t) <> -1) by (cbn; lia).
  destruct recurse; [|injection Hn as <- <-; exact Hi].
  rewrite (cur_slot t rest E) in Hn.
  unfold getAttribute, getSlot in Hn.
  destruct (attribute_at (module_ t) (i_ t)) as [a|e]; [|discriminate Hn].
  cbn [bind] in Hn.
  destruct (is_module (getType a)); [|injection Hn as <- <-; exact Hi].
  destruct (toModule (getValue a)) as [m|e]; [|discriminate Hn].
  cbn [bind] in Hn. injection Hn as <- <-. cbn. lia.
Qed.

Lemma Inv_init (inc : bool) :
  Inv root [mkCursor root (if inc then -1 else 0)].
Proof.
  right. split; [constructor|]. cbn [top_in_bounds i_ module_].
  destruct inc; split; try lia; reflexivity.
Qed.

Lemma visited_Inv recurse inc k cs :
  visited root recurse inc k cs -> Inv root cs.
Proof.
  induction 1 as [|k cs cs' _ IH Hn]; [apply Inv_init|].
  eapply next_Inv; eassumption.
Qed.

Lemma visited_sentinel recurse inc k cs c :
  visited root recurse inc k cs -> In c cs -> i_ c = -1 ->
  k = O /\ cs = [c] /\ inc = true.
Proof.
  intros Hv Hin Hc. destruct Hv as [|k cs cs' Hv Hn].
  - destruct Hin as [<-|[]]. cbn in Hc. destruct inc; [auto | discriminate Hc].
  - exfalso. pose proof (next_no_sentinel recurse cs cs'
                           (visited_Inv _ _ _ _ Hv) Hn) as Hns.
    rewrite Forall_forall in Hns. exact (Hns c Hin Hc).
Qed.

End Invariant.

(** ** What [valid] guarantees to [create] *)

Lemma valid_slot m a :
  structurally_valid (_ivalue m) = true -> In a (slots m) ->
  slot_conforms a = true /\
  (is_module (getType a) = true -> structurally_valid (getValue a) = true).
Proof.
  unfold _ivalue. cbn [structurally_valid]. intros H Hin.
  rewrite forallb_forall in H. specialize (H a Hin).
  apply andb_true_iff in H. destruct H as [Hc Hs].
  split; [exact Hc|]. intros Hm. rewrite Hm in Hs. exact Hs.
Qed.

Lemma linked_valid root cs :
  structurally_valid (_ivalue root) = true -> linked root cs ->
  Forall (fun c => structurally_valid (_ivalue (module_ c)) = true) cs.
Proof.
  intros Hroot. induction 1 as [i|sub j t rest a Hl IH Ha Hm Hv].
  - constructor; [exact Hroot | constructor].
  - constructor; [|exact IH]. cbn [module_].
    inversion IH as [|t0 l0 Ht _]; subst.
    rewrite <- Hv.
    apply (valid_slot (module_ t) a Ht (attribute_at_In _ _ _ Ha)). exact Hm.
Qed.

Lemma linked_named root cs :
  linked root cs ->
  Forall (fun c => exists s, nameFragment c = Ok s) (tl cs).
Proof.
  induction 1 as [i|sub j t rest a Hl IH Ha Hm Hv]; cbn [tl].
  - constructor.
  - constructor; [|exact IH].
    unfold nameFragment, getAttributeName. rewrite Ha. eexists; reflexivity.
Qed.

Lemma name_loop_total vec : forall i ss,
  Forall (fun c => exists s, nameFragment c = Ok s) vec ->
  exists s, name_loop i vec ss = Ok s.
Proof.
  induction vec as [|f vec IH]; intros i ss H; cbn [name_loop].
  - eexists; reflexivity.
  - inversion H as [|f0 l0 [s Hs] Hrest]; subst. rewrite Hs. cbn [bind].
    apply IH. exact Hrest.
Qed.

(** The names of a linked stack resolve, whether its top is the sentinel of
    a lone cursor or a slot in range. *)
Lemma named_name_total root t rest :
  linked root (t :: rest) ->
  (i_ t = -1 /\ rest = [] \/
   exists a, attribute_at (module_ t) (i_ t) = Ok a) ->
  exists s, named_name (t :: rest) = Ok s.
Proof.
  intros Hl Htop. unfold named_name.
  destruct Htop as [[E ->]|[a Ha]].
  - cbn. rewrite E. cbn. eexists; reflexivity.
  - assert (Hf : exists s, nameFragment t = Ok s).
    { unfold nameFragment, getAttributeName. rewrite Ha.
      eexists; reflexivity. }
    destruct (List.length (t :: rest) =? 1)%nat.
    + destruct (i_ t =? -1); [eexists; reflexivity | exact Hf].
    + apply name_loop_total. apply Forall_rev.
      constructor; [exact Hf | apply (linked_named root (t :: rest) Hl)].
Qed.

Lemma all_slots_valid P a : all_slots P = true -> policy_valid P a = true.
Proof. induction P; cbn; intros H; try discriminate H; auto. Qed.

(** A slot the policy accepts can be projected: by its conformance to the
    declared type, or because the policy takes every slot as it is. *)
Lemma create_accepted P cs a :
  policy_valid P a = true ->
  slot_conforms a = true \/ all_slots P = true ->
  (exists s, named_name cs = Ok s) ->
  exists x, create P cs (getValue a) = Ok x.
Proof.
  intros Hv Hc Hn. induction P as [| | | |P' IH]; cbn [create].
  - destruct Hc as [Hc|Hc]; [|discriminate Hc].
    cbn in Hv. unfold slot_conforms in Hc. rewrite Hv in Hc.
    apply andb_true_iff in Hc. destruct Hc as [Hobj _]. cbn in Hobj.
    destruct (getValue a); try discriminate Hobj. eexists; reflexivity.
  - cbn in Hv. apply andb_true_iff in Hv. destruct Hv as [_ Ht].
    destruct (getValue a); try discriminate Ht. eexists; reflexivity.
  - destruct Hc as [Hc|Hc]; [|discriminate Hc].
    cbn in Hv. apply andb_true_iff in Hv. destruct Hv as [Hty _].
    unfold slot_conforms in Hc. rewrite Hty in Hc.
    apply andb_true_iff in Hc. destruct Hc as [_ Ht]. cbn in Ht.
    destruct (getValue a); try discriminate Ht. eexists; reflexivity.
  - eexists; reflexivity.
  - destruct Hn as [s Hs]. rewrite Hs. cbn [bind].
    destruct (IH Hv Hc) as [x Hx]. rewrite Hx. eexists; reflexivity.
Qed.

(** Dereferencing at a stop on a slot succeeds. *)
Lemma deref_accepted P root recurse t rest :
  linked root (t :: rest) ->
  structurally_valid (_ivalue root) = true \/ all_slots P = true ->
  at_element P (t :: rest) = Ok true ->
  i_ t <> -1 ->
  exists a x,
    attribute_at (module_ t) (i_ t) = Ok a /\
    policy_valid P a = true /\
    cur (t :: rest) = Ok (getValue a) /\
    create P (t :: rest) (getValue a) = Ok x /\
    deref P (mkIter (t :: rest) recurse) = Ok x.
Proof.
  intros Hl Hwf Hat Hi.
  destruct (at_element_accepted P _ Hat) as (t0 & rest0 & E & Hc).
  injection E as <- <-.
  destruct Hc as [Hc|(a & Ha & Hv & _)]; [contradiction|].
  assert (Hcur : cur (t :: rest) = Ok (getValue a)).
  { unfold cur. cbn [top bind].
    destruct (Z.eqb_spec (i_ t) (-1)) as [E|_]; [contradiction|].
    unfold getSlot. rewrite Ha. reflexivity. }
  assert (Hconf : slot_conforms a = true \/ all_slots P = true).
  { destruct Hwf as [Hwf|Hall]; [left|right; exact Hall].
    pose proof (linked_valid root _ Hwf Hl) as Hf.
    inversion Hf as [|t0 l0 Ht _]; subst.
    apply (valid_slot (module_ t) a Ht (attribute_at_In _ _ _ Ha)). }
  destruct (create_accepted P (t :: rest) a Hv Hconf) as [x Hx].
  { apply (named_name_total root t rest Hl). right. exists a. exact Ha. }
  exists a, x. repeat split; try assumption.
  unfold deref. cbn [cursors_]. rewrite Hcur. exact Hx.
Qed.

(** ** Reachable iterators rest on visited states *)

Section Reachable.

Variable P : Policy.
Variable root : Module.
Variables recurse inc : bool.

Lemma while_visited fuel : forall cs cs' k,
  while_not_valid_next P fuel recurse cs = Ok cs' ->
  visited root recurse inc k cs ->
  (exists k', (k <= k')%nat /\ visited root recurse inc k' cs') /\
  (cs' = [] \/ at_element P cs' = Ok true).
Proof.
  induction fuel as [|fuel IH]; intros cs cs' k H Hv; [discriminate H|].
  cbn [while_not_valid_next] in H.
  destruct cs as [|t rest].
  { injection H as <-. split; [exists k; split; [lia | exact Hv] | left; reflexivity]. }
  unfold at_element.
  destruct (return_module (t :: rest)) as [rm|e] eqn:Hrm; [|discriminate H].
  cbn [bind] in H. destruct rm.
  { injection H as <-. rewrite Hrm. cbn [bind].
    split; [exists k; split; [lia | exact Hv] | right; reflexivity]. }
  destruct (valid P (t :: rest)) as [ok|e] eqn:Hok; [|discriminate H].
  cbn [bind] in H. destruct ok.
  { injection H as <-. rewrite Hrm. cbn [bind].
    split; [exists k; split; [lia | exact Hv] | right; exact Hok]. }
  destruct (next recurse (t :: rest)) as [cs1|e] eqn:Hn; [|discriminate H].
  cbn [bind] in H.
  destruct (IH cs1 cs' (S k) H (visited_next _ _ _ _ _ _ Hv Hn))
    as [(k' & Hk & Hv') Hstop].
  split; [exists k'; split; [lia | exact Hv'] | exact Hstop].
Qed.

Lemma visited_empty k : visited root recurse inc k [] -> (0 < k)%nat.
Proof. intros H. inversion H; subst; lia. Qed.

(** A reachable iterator rests on a visited state at which the loop test
    holds; after an advance that state is past the first step. *)
Lemma reachable_visited k it :
  reachable P root recurse inc k it ->
  recurse_ it = recurse /\
  (exists j, ((0 < k)%nat -> (0 < j)%nat) /\
             visited root recurse inc j (cursors_ it)) /\
  (cursors_ it = [] \/ at_element P (cursors_ it) = Ok true).
Proof.
  induction 1 as [fuel it Hmk|k it fuel it' Hr IH Hnv].
  - unfold make_iterator in Hmk.
    destruct (while_not_valid_next P fuel recurse _) as [cs|e] eqn:Hw;
      [|discriminate Hmk].
    cbn [bind] in Hmk. injection Hmk as <-. cbn [cursors_ recurse_].
    destruct (while_visited fuel _ cs O Hw (visited_init root recurse inc))
      as [(k' & Hk & Hv) Hstop].
    repeat split; [exists k'; split; [lia | exact Hv] | exact Hstop].
  - destruct IH as (Hrec & (j & Hj & Hv) & Hstop).
    unfold next_valid in Hnv. rewrite Hrec in Hnv.
    destruct (cursors_ it) as [|t rest] eqn:Hcs.
    + injection Hnv as <-. rewrite Hcs.
      repeat split; [exact Hrec| |left; reflexivity].
      exists j. split; [intros _; apply visited_empty; exact Hv | exact Hv].
    + destruct (next recurse (t :: rest)) as [cs1|e] eqn:Hn;
        [|discriminate Hnv].
      cbn [bind] in Hnv.
      destruct (while_not_valid_next P fuel recurse cs1) as [cs2|e] eqn:Hw;
        [|discriminate Hnv].
      cbn [bind] in Hnv. injection Hnv as <-. cbn [cursors_ recurse_].
      destruct (while_visited fuel cs1 cs2 (S j) Hw
                  (visited_next _ _ _ _ _ _ Hv Hn)) as [(k' & Hk & Hv') Hstop'].
      repeat split; [exists k'; split; [lia | exact Hv'] | exact Hstop'].
Qed.

End Reachable.

(** ** Exhaustive iteration returns *)

Lemma stops_app l1 l2 : stops (l1 ++ l2) = stops l1 ++ stops l2.
Proof. unfold stops. rewrite filter_app, map_app. reflexivity. Qed.

Lemma Walk_visited P root recurse inc cs l cs' :
  Walk P recurse cs l cs' ->
  forall k, visited root recurse inc k cs ->
  Forall (fun c => exists j, visited root recurse inc j c) (map fst l).
Proof.
  induction 1 as [|c b c1 l c2 Hat Hnext Hw IH]; intros k Hv; cbn [map fst].
  - constructor.
  - constructor; [exists k; exact Hv|].
    apply (IH (S k)). econstructor; eassumption.
Qed.

Lemma stops_incl l : incl (stops l) (map fst l).
Proof.
  unfold stops. intros c Hc. apply in_map_iff in Hc.
  destruct Hc as ((c0, b) & <- & Hin). apply filter_In in Hin.
  apply in_map. apply Hin.
Qed.

(** Over a structurally valid tree (or, for a policy that takes every slot,
    over any tree when recursion is off), a list that excludes the root can
    be iterated to its end: every [*it] succeeds and there is one element
    per stop. *)
Lemma elements_total P root recurse fuel :
  (recurse = true -> structurally_valid (_ivalue root) = true) ->
  structurally_valid (_ivalue root) = true \/ all_slots P = true ->
  (List.length (positions P root recurse false) < fuel)%nat ->
  exists xs,
    elements P fuel (make_list P root recurse false) = Ok xs /\
    List.length xs = List.length (stops (positions P root recurse false)).
Proof.
  intros Hrec Hconf Hfuel.
  pose proof (positions_Walk P recurse root false Hrec) as Hw.
  unfold make_list.
  rewrite (elements_walk P recurse root false _ _ fuel Hw Hfuel).
  destruct (mapM_total (fun c => deref P (mkIter c recurse))
              (stops (positions P root recurse false))) as [xs Hxs].
  - pose proof (Walk_stops P recurse _ _ _ Hw) as Hst.
    pose proof (Walk_visited P root recurse false _ _ _ Hw O
                  (visited_init root recurse false)) as Hvis.
    rewrite Forall_forall in Hst, Hvis |- *.
    intros c Hc. specialize (Hst c Hc).
    destruct (Hvis c (stops_incl _ c Hc)) as [j Hj].
    destruct (at_element_accepted P c Hst) as (t & rest & -> & _).
    assert (Hi : i_ t <> -1).
    { intros E.
      destruct (visited_sentinel root recurse false j _ t Hj
                  (or_introl eq_refl) E) as (_ & _ & Hinc).
      discriminate Hinc. }
    destruct (visited_Inv root recurse false j _ Hj) as [E|[Hl _]];
      [discriminate E|].
    destruct (deref_accepted P root recurse t rest Hl Hconf Hst Hi)
      as (a & x & _ & _ & _ & _ & Hx).
    exists x. exact Hx.
  - exists xs. split; [exact Hxs | exact (mapM_length _ _ _ Hxs)].
Qed.

(** A policy that takes every slot stops once per slot of every reachable
    container when it recurses, and once per slot of the root when not. *)
Lemma stops_count_recursive P :
  all_slots P = true ->
  forall v rest,
    List.length (stops (walk P true v rest)) = total_slots v.
Proof.
  intros Hall.
  induction v as [| | |ss IH] using IValue_nested_ind; intros rest;
    try reflexivity.
  cbn [walk total_slots].
  enough (Hgen : forall i m,
    List.length (stops (walk_slots P true (walk P true) m rest ss i))
    = list_sum (map (fun a => S (if is_module (getType a)
                                 then total_slots (getValue a) else O)) ss))
    by apply Hgen.
  induction IH as [|a suf Ha _ IHsuf]; intros i m.
  - reflexivity.
  - cbn [walk_slots map list_sum andb].
    change (?x :: ?l1 ++ ?l2) with ((x :: l1) ++ l2).
    rewrite stops_app, length_app, IHsuf.
    unfold stops at 1. cbn [filter snd].
    rewrite (all_slots_valid P a Hall). cbn [map List.length].
    fold (stops (if is_module (getType a)
                 then walk P true (getValue a) (mkCursor m (Z.of_nat i) :: rest)
                 else [])).
    destruct (is_module (getType a)); [rewrite Ha|]; reflexivity.
Qed.

Lemma stops_count_flat P sub m rest :
  all_slots P = true ->
  forall suf i,
    List.length (stops (walk_slots P false sub m rest suf i))
    = List.length suf.
Proof.
  intros Hall. induction suf as [|a suf IH]; intros i; [reflexivity|].
  cbn [walk_slots andb app]. unfold stops in *. cbn [filter snd].
  rewrite (all_slots_valid P a Hall). cbn [map List.length].
  rewrite IH. reflexivity.
Qed.

(** ** Names *)

Lemma append_assoc (s1 s2 s3 : string) :
  ((s1 ++ s2) ++ s3 = s1 ++ (s2 ++ s3))%string.
Proof. induction s1 as [|c s1 IH]; cbn; [reflexivity | rewrite IH; reflexivity]. Qed.

Lemma append_nil_r (s : string) : (s ++ "" = s)%string.
Proof. induction s as [|c s IH]; cbn; [reflexivity | rewrite IH; reflexivity]. Qed.

Lemma concat_dotted_tail x names :
  String.concat "."%string (x :: names) = (x ++ dotted_tail names)%string.
Proof.
  revert x. induction names as [|y names IH]; intros x.
  - cbn. rewrite append_nil_r. reflexivity.
  - change (String.concat "." (x :: y :: names))
      with (x ++ "." ++ String.concat "." (y :: names))%string.
    rewrite IH. reflexivity.
Qed.

Lemma name_loop_tail vec : forall i ss,
  name_loop (S i) vec ss
  = (names <- mapM nameFragment vec ;; Ok (ss ++ dotted_tail names)%string).
Proof.
  induction vec as [|f vec IH]; intros i ss; cbn [name_loop mapM].
  - cbn. rewrite append_nil_r. reflexivity.
  - destruct (nameFragment f) as [frag|e]; cbn [bind]; [|reflexivity].
    rewrite IH. cbn [Nat.ltb Nat.leb].
    destruct (mapM nameFragment vec) as [names|e]; cbn [bind]; [|reflexivity].
    cbn [dotted_tail fold_right]. fold (dotted_tail names).
    rewrite !append_assoc. reflexivity.
Qed.

Lemma name_loop_concat vec :
  name_loop 0 vec EmptyString
  = (names <- mapM nameFragment vec ;; Ok (String.concat "."%string names)).
Proof.
  destruct vec as [|f vec]; [reflexivity|].
  cbn [name_loop mapM]. 
  destruct (nameFragment f) as [frag|e]; cbn [bind]; [|reflexivity].
  rewrite name_loop_tail.
  destruct (mapM nameFragment vec) as [names|e]; cbn [bind]; [|reflexivity].
  rewrite concat_dotted_tail. reflexivity.
Qed.

(** The loop of [NamedPolicy::create] computes the dotted name. *)
Lemma named_name_dotted cs : named_name cs = dotted_name cs.
Proof.
  unfold named_name, dotted_name.
  destruct cs as [|c [|c' cs]].
  - reflexivity.
  - cbn [List.length Nat.eqb]. destruct (i_ c =? -1); [reflexivity|].
    cbn [rev app mapM]. destruct (nameFragment c); reflexivity.
  - cbn [List.length Nat.eqb]. apply name_loop_concat.
Qed.

Lemma walk_slots_flat_length P sub m rest : forall suf i,
  List.length (walk_slots P false sub m rest suf i) = S (List.length suf).
Proof.
  induction suf as [|a suf IH]; intros i; [reflexivity|].
  cbn [walk_slots andb app List.length]. rewrite IH. reflexivity.
Qed.

(** ** Properties of the lists and their iterators *)

(** C1: for every policy, recurse flag and include-root flag, [size()] of a
    freshly constructed list returns the number of elements that exhaustive
    iteration from [begin()] to [end()] yields, and caches it.  On the fast
    path (the policy takes all slots, no recursion, root excluded) the
    constructor has set the size to the root's slot count: iteration then
    returns, and yields exactly that many elements. *)
Theorem size_agrees_with_iteration P root recurse inc :
  (forall fuel xs,
     elements P fuel (make_list P root recurse inc) = Ok xs ->
     size P fuel (make_list P root recurse inc)
     = Ok (List.length xs, mkList root recurse inc (Some (List.length xs)))) /\
  (all_slots P = true -> recurse = false -> inc = false ->
   forall fuel, (num_slots root + 1 < fuel)%nat ->
     exists xs,
       elements P fuel (make_list P root recurse inc) = Ok xs /\
       List.length xs = num_slots root /\
       size P 0 (make_list P root recurse inc)
       = Ok (num_slots root, make_list P root recurse inc)).
Proof.
  assert (Hfast : all_slots P = true -> recurse = false -> inc = false ->
    forall fuel, (num_slots root + 1 < fuel)%nat ->
    exists xs,
      elements P fuel (make_list P root recurse inc) = Ok xs /\
      List.length xs = num_slots root).
  { intros Hall -> -> fuel Hfuel.
    assert (Hpos : List.length (positions P root false false)
                   = (num_slots root + 1)%nat).
    { unfold positions, _ivalue, num_slots. cbn [app walk].
      rewrite walk_slots_flat_length. lia. }
    destruct (elements_total P root false fuel) as (xs & Hxs & Hlen).
    - intros H; discriminate H.
    - right; exact Hall.
    - rewrite Hpos. exact Hfuel.
    - exists xs. split; [exact Hxs|]. rewrite Hlen.
      unfold positions, _ivalue, num_slots. cbn [app walk].
      apply stops_count_flat. exact Hall. }
  split.
  - intros fuel xs Hxs. unfold size.
    destruct (size_ (make_list P root recurse inc)) as [n|] eqn:Hsz.
    + unfold make_list in Hsz. cbn [size_] in Hsz.
      destruct (negb recurse && negb inc && all_slots P) eqn:Hc;
        [|discriminate Hsz].
      injection Hsz as <-.
      apply andb_true_iff in Hc. destruct Hc as [Hc Hall].
      apply andb_true_iff in Hc. destruct Hc as [Hr Hi].
      apply negb_true_iff in Hr, Hi.
      destruct (Hfast Hall Hr Hi (S (S (num_slots root + fuel))))
        as (ys & Hys & Hlen); [lia|].
      rewrite (elements_deterministic P _ _ _ _ _ Hxs Hys), Hlen.
      unfold make_list. rewrite Hr, Hi, Hall. reflexivity.
    + rewrite Hxs. reflexivity.
  - intros Hall Hr Hi fuel Hfuel.
    destruct (Hfast Hall Hr Hi fuel Hfuel) as (xs & Hxs & Hlen).
    exists xs. repeat split; [exact Hxs | exact Hlen|].
    unfold size, make_list. cbn [size_]. rewrite Hr, Hi, Hall. reflexivity.
Qed.

Lemma size_agrees_with_iteration_witness :
  (elements BufferPolicy 9
     (make_list BufferPolicy Samples.root true false) = Ok [2%nat] /\
   size BufferPolicy 9 (make_list BufferPolicy Samples.root true false)
   = Ok (1%nat, mkList Samples.root true false (Some 1%nat))) /\
  (exists xs,
     elements (NamedPolicy AttributePolicy) 5
       (make_list (NamedPolicy AttributePolicy) Samples.root false false)
     = Ok xs /\
     List.length xs = 3%nat /\
     size (NamedPolicy AttributePolicy) 0
       (make_list (NamedPolicy AttributePolicy) Samples.root false false)
     = Ok (3%nat,
           make_list (NamedPolicy AttributePolicy) Samples.root false false)).
Proof.
  split.
  - split; [reflexivity|].
    apply (proj1 (size_agrees_with_iteration BufferPolicy Samples.root
                    true false) 9%nat [2%nat]).
    reflexivity.
  - apply (proj2 (size_agrees_with_iteration (NamedPolicy AttributePolicy)
                    Samples.root false false));
      [reflexivity | reflexivity | reflexivity | vm_compute; lia].
Defined.

(** C3: over a structurally valid tree, iterating the attribute list with
    recursion and without the root returns, and yields exactly as many
    elements as the containers reachable from the root (the root included)
    have slots in total. *)
Theorem attribute_list_complete root fuel :
  structurally_valid (_ivalue root) = true ->
  (List.length (positions AttributePolicy root true false) < fuel)%nat ->
  exists xs,
    elements AttributePolicy fuel (make_list AttributePolicy root true false)
    = Ok xs /\
    List.length xs = total_slots (_ivalue root).
Proof.
  intros Hwf Hfuel.
  destruct (elements_total AttributePolicy root true fuel) as (xs & Hxs & Hlen);
    [intros _; exact Hwf | left; exact Hwf | exact Hfuel |].
  exists xs. split; [exact Hxs|]. rewrite Hlen. unfold positions. cbn [app].
  apply stops_count_recursive. reflexivity.
Qed.

Lemma attribute_list_complete_witness :
  exists xs,
    elements AttributePolicy 7
      (make_list AttributePolicy Samples.root true false) = Ok xs /\
    List.length xs = 4%nat.
Proof.
  apply (attribute_list_complete Samples.root 7);
    [reflexivity | vm_compute; lia].
Defined.

Lemma slot_of_tree_conforms v a :
  structurally_valid v = true -> slot_of_tree v a -> slot_conforms a = true.
Proof.
  intros Hwf Hs. induction Hs as [ss a Hin|ss b a Hin Hm Hs IH].
  - apply (valid_slot (mkModule ss) a Hwf Hin).
  - apply IH. apply (valid_slot (mkModule ss) b Hwf Hin). exact Hm.
Qed.

(** C2: in a structurally valid tree, a slot of any container whose declared
    type is a tensor type is accepted by exactly one of [ParameterPolicy] and
    [BufferPolicy]; a slot is accepted by [ModulePolicy] exactly when its
    declared type is a module type; and no slot is accepted by two of the
    three policies. *)
Theorem policy_partition root a :
  structurally_valid (_ivalue root) = true ->
  slot_of_tree (_ivalue root) a ->
  (isSubtypeOfTensor (getType a) = true ->
   xorb (policy_valid ParameterPolicy a) (policy_valid BufferPolicy a) = true)
  /\
  (policy_valid ModulePolicy a = true <-> is_module (getType a) = true) /\
  policy_valid ParameterPolicy a && policy_valid BufferPolicy a = false /\
  policy_valid ParameterPolicy a && policy_valid ModulePolicy a = false /\
  policy_valid BufferPolicy a && policy_valid ModulePolicy a = false.
Proof.
  intros Hwf Hs. pose proof (slot_of_tree_conforms _ a Hwf Hs) as Hc.
  unfold slot_conforms in Hc. cbn [policy_valid].
  destruct a as [n [m t] p v]. cbn in *.
  destruct m, t, p, v; cbn in *; try discriminate Hc;
    repeat split; intros; try reflexivity; try discriminate; try assumption.
Qed.

Lemma policy_partition_witness :
  xorb (policy_valid ParameterPolicy
          (mkAttribute "c"%string Samples.tensor_type false (IVTensor 2%nat)))
       (policy_valid BufferPolicy
          (mkAttribute "c"%string Samples.tensor_type false (IVTensor 2%nat)))
  = true.
Proof.
  apply (policy_partition Samples.root
           (mkAttribute "c"%string Samples.tensor_type false (IVTensor 2%nat))).
  - reflexivity.
  - eapply slot_below with
      (b := mkAttribute "b"%string Samples.module_type false
              (IVObject Samples.sub_b)).
    + right; left; reflexivity.
    + reflexivity.
    + apply slot_here. left; reflexivity.
  - reflexivity.
Defined.

(** C4, as the code has it: [operator!=] holds exactly when one of the two
    iterators is terminal and the other is not; so an iterator differs from
    the end iterator exactly while it has cursors. *)
Theorem neq_compares_emptiness a b :
  (neq a b = true <->
   (cursors_ a = [] /\ cursors_ b <> []) \/
   (cursors_ a <> [] /\ cursors_ b = [])) /\
  (neq a end_iterator = true <-> cursors_ a <> []).
Proof.
  unfold neq, end_iterator. cbn [cursors_ empty].
  destruct (cursors_ a) as [|ta ra], (cursors_ b) as [|tb rb]; cbn;
    repeat split; intros H; try discriminate H; try reflexivity;
    try (intros E; discriminate E);
    try (left; split; [reflexivity | intros E; discriminate E]);
    try (right; split; [intros E; discriminate E | reflexivity]);
    try (destruct H as [[H1 H2]|[H1 H2]]; congruence);
    try congruence.
Qed.

(** C4 fails as stated: [begin()] of the recursive attribute list of the
    sample root and the iterator one [operator++] later are both
    non-terminal, rest on different slots, and do not compare unequal. *)
Lemma neq_counterexample :
  make_iterator AttributePolicy 3 Samples.root true false
  = Ok (mkIter [mkCursor Samples.root 0] true) /\
  next_valid AttributePolicy 3 (mkIter [mkCursor Samples.root 0] true)
  = Ok (mkIter [mkCursor Samples.root 1] true) /\
  ~ (cursors_ (mkIter [mkCursor Samples.root 0] true) = [] /\
     cursors_ (mkIter [mkCursor Samples.root 1] true) = []) /\
  neq (mkIter [mkCursor Samples.root 0] true)
      (mkIter [mkCursor Samples.root 1] true) = false.
Proof.
  split; [reflexivity|]. split; [reflexivity|].
  split; [intros [E _]; discriminate E | reflexivity].
Qed.

(** C5: [operator++] on an iterator without cursors returns it unchanged,
    whatever the step budget: it still does not differ from the end iterator
    and still differs from every iterator that has cursors. *)
Theorem next_valid_terminal P fuel it :
  cursors_ it = [] ->
  next_valid P fuel it = Ok it /\
  neq it end_iterator = false /\
  (forall other, cursors_ other <> [] ->
     neq it other = true /\ neq other it = true).
Proof.
  intros H. unfold next_valid, neq, end_iterator. rewrite H. cbn.
  split; [reflexivity|]. split; [reflexivity|].
  intros other Ho. destruct (cursors_ other); [contradiction|].
  split; reflexivity.
Qed.

Lemma next_valid_terminal_witness :
  next_valid ModulePolicy 0 end_iterator = Ok end_iterator /\
  neq end_iterator end_iterator = false.
Proof.
  destruct (next_valid_terminal ModulePolicy 0 end_iterator eq_refl)
    as (H1 & H2 & _).
  split; [exact H1 | exact H2].
Defined.

(** C6, as the code has it: over a container without slots every list that
    excludes the root is empty and has size 0, for every policy and recurse
    flag; the lists that include the root ([modules()], [named_modules()])
    yield the root itself, under the empty name, and have size 1. *)
Theorem empty_container_lists P root recurse fuel :
  numAttributes root = 0%nat ->
  (2 <= fuel)%nat ->
  (elements P fuel (make_list P root recurse false) = Ok [] /\
   exists l',
     size P fuel (make_list P root recurse false) = Ok (0%nat, l')) /\
  (elements ModulePolicy fuel (make_list ModulePolicy root recurse true)
   = Ok [root] /\
   size ModulePolicy fuel (make_list ModulePolicy root recurse true)
   = Ok (1%nat, mkList root recurse true (Some 1%nat))) /\
  (elements (NamedPolicy ModulePolicy) fuel
     (make_list (NamedPolicy ModulePolicy) root recurse true)
   = Ok [mkNamed EmptyString root] /\
   size (NamedPolicy ModulePolicy) fuel
     (make_list (NamedPolicy ModulePolicy) root recurse true)
   = Ok (1%nat, mkList root recurse true (Some 1%nat))).
Proof.
  intros Hn Hfuel. destruct root as [ss]. unfold numAttributes in Hn.
  cbn [slots] in Hn. destruct ss; [|discriminate Hn].
  destruct fuel as [|[|fuel]]; try lia.
  assert (He : elements P (S (S fuel))
                 (make_list P (mkModule []) recurse false) = Ok [])
    by reflexivity.
  split; [split; [exact He|]|].
  - unfold size. destruct (size_ _) as [n|] eqn:Hsz.
    + unfold make_list in Hsz. cbn [size_] in Hsz.
      destruct (negb recurse && negb false && all_slots P);
        [|discriminate Hsz].
      injection Hsz as <-. eexists; reflexivity.
    + rewrite He. eexists; reflexivity.
  - destruct recurse; repeat split; reflexivity.
Qed.

Lemma empty_container_lists_witness :
  elements ParameterPolicy 2
    (make_list ParameterPolicy Samples.empty_module true false) = Ok [] /\
  elements ModulePolicy 2
    (make_list ModulePolicy Samples.empty_module true true)
  = Ok [Samples.empty_module].
Proof.
  destruct (empty_container_lists ParameterPolicy Samples.empty_module true 2
              eq_refl (le_n 2)) as ((H1 & _) & (H2 & _) & _).
  split; [exact H1 | exact H2].
Defined.

(** C6 fails as stated: [modules()] of a container without slots yields one
    element, the container itself, and its size is 1. *)
Lemma empty_container_counterexample :
  numAttributes Samples.empty_module = 0%nat /\
  elements ModulePolicy 2
    (make_list ModulePolicy Samples.empty_module true true)
  = Ok [Samples.empty_module] /\
  size ModulePolicy 2 (make_list ModulePolicy Samples.empty_module true true)
  = Ok (1%nat, mkList Samples.empty_module true true (Some 1%nat)) /\
  (forall fuel,
     elements ModulePolicy fuel
       (make_list ModulePolicy Samples.empty_module true true) <> Ok []).
Proof.
  repeat split. intros fuel H.
  assert (H2 : elements ModulePolicy 2
                 (make_list ModulePolicy Samples.empty_module true true)
               = Ok [Samples.empty_module]) by reflexivity.
  pose proof (elements_deterministic _ _ _ _ _ _ H H2) as E. discriminate E.
Qed.

(** C7: the name of every element a named list yields is the dotted name of
    the iterator's position: the slot names of the cursors from the root to
    the top, joined by dots; and it is the empty string when the stack is the
    lone sentinel cursor of the root. *)
Theorem named_element_name P it x :
  deref (NamedPolicy P) it = Ok x ->
  dotted_name (cursors_ it) = Ok (name x) /\
  ((exists names,
      mapM nameFragment (rev (cursors_ it)) = Ok names /\
      name x = String.concat "."%string names)
   \/ (exists c, cursors_ it = [c] /\ i_ c = -1)) /\
  (forall c, cursors_ it = [c] -> i_ c = -1 -> name x = EmptyString).
Proof.
  unfold deref. cbn [create]. rewrite named_name_dotted. intros H.
  destruct (cur (cursors_ it)) as [v|e]; [|discriminate H]. cbn [bind] in H.
  destruct (dotted_name (cursors_ it)) as [n|e] eqn:Hn; [|discriminate H].
  cbn [bind] in H.
  destruct (create P (cursors_ it) v) as [y|e]; [|discriminate H].
  cbn [bind] in H. injection H as <-. cbn [name].
  split; [reflexivity|]. split.
  - unfold dotted_name in Hn.
    destruct (cursors_ it) as [|c [|c' cs]] eqn:Hcs.
    + left. exists []. cbn in *. injection Hn as <-. auto.
    + destruct (Z.eqb_spec (i_ c) (-1)) as [E|E].
      * right. exists c. auto.
      * left. destruct (mapM nameFragment (rev [c])) as [names|e];
          [|discriminate Hn].
        cbn [bind] in Hn. injection Hn as <-. exists names. auto.
    + left. destruct (mapM nameFragment (rev (c :: c' :: cs))) as [names|e];
        [|discriminate Hn].
      cbn [bind] in Hn. injection Hn as <-. exists names. auto.
  - intros c Hc Hi. rewrite Hc in Hn. unfold dotted_name in Hn.
    rewrite Hi in Hn. cbn in Hn. injection Hn as <-. reflexivity.
Qed.

Lemma named_element_name_witness :
  dotted_name [mkCursor (mkModule Samples.sub_b) 0; mkCursor Samples.root 1]
  = Ok "b.c"%string.
Proof.
  apply (named_element_name BufferPolicy
           (mkIter [mkCursor (mkModule Samples.sub_b) 0;
                    mkCursor Samples.root 1] true)
           (mkNamed "b.c"%string 2%nat)).
  reflexivity.
Defined.

Lemma later_fields P l l' :
  later P l l' ->
  list_module_ l' = list_module_ l /\
  list_recurse_ l' = list_recurse_ l /\
  list_return_module_ l' = list_return_module_ l.
Proof.
  induction 1 as [l|l l1 fuel n l2 _ IH Hs]; [auto|].
  unfold size in Hs. destruct (size_ l1).
  - injection Hs as _ <-. exact IH.
  - destruct (elements P fuel l1); [|discriminate Hs].
    cbn [bind] in Hs. injection Hs as _ <-. exact IH.
Qed.

(** C8: once an iteration of a list has produced its elements, every later
    iteration of the same list object (its size cache filled or not) with at
    least the same step budget produces the same elements in the same order,
    and no iteration of it produces anything else. *)
Theorem list_restartable P l l' f1 xs :
  later P l l' ->
  elements P f1 l = Ok xs ->
  forall f2,
    ((f1 <= f2)%nat -> elements P f2 l' = Ok xs) /\
    (forall ys, elements P f2 l' = Ok ys ->
       List.length ys = List.length xs /\ ys = xs).
Proof.
  intros Hl Hxs f2.
  destruct (later_fields P l l' Hl) as (Hm & Hr & Hi).
  assert (Heq : forall f, elements P f l' = elements P f l).
  { intros f. destruct l, l'. cbn in Hm, Hr, Hi. subst. reflexivity. }
  rewrite Heq. split.
  - intros Hle. exact (elements_mono P f1 f2 l xs Hxs Hle).
  - intros ys Hys.
    rewrite (elements_deterministic P _ _ _ _ _ Hys Hxs). auto.
Qed.

Lemma list_restartable_witness :
  elements (NamedPolicy ParameterPolicy) 12
    (mkList Samples.root true false (Some 1%nat))
  = Ok [mkNamed "a"%string 1%nat].
Proof.
  apply (list_restartable (NamedPolicy ParameterPolicy)
           (make_list (NamedPolicy ParameterPolicy) Samples.root true false)
           (mkList Samples.root true false (Some 1%nat))
           9 [mkNamed "a"%string 1%nat]).
  - eapply later_size with (fuel := 9%nat); [apply later_same | reflexivity].
  - reflexivity.
  - repeat constructor.
Defined.

(** C9: in every state the iterator passes through from its construction,
    by any number of steps of [next]: the stack is empty exactly when the
    iterator does not differ from the end iterator; a cursor with index -1
    is the only cursor of the stack and no step has been taken yet; every
    cursor under the top rests on a slot of its module; and the top cursor
    is at most one past the last slot, in which case the next step pops
    it. *)
Theorem stack_invariant root recurse inc k cs :
  visited root recurse inc k cs ->
  (cs = [] <-> neq (mkIter cs recurse) end_iterator = false) /\
  (forall c, In c cs -> i_ c = -1 -> k = 0%nat /\ cs = [c]) /\
  (forall t rest, cs = t :: rest ->
     Forall (fun c => 0 <= i_ c < Z.of_nat (numAttributes (module_ c))) rest /\
     -1 <= i_ t <= Z.of_nat (numAttributes (module_ t)) /\
     (Z.of_nat (numAttributes (module_ t)) <= i_ t ->
      next recurse cs = Ok (after_pop rest))).
Proof.
  intros Hv. split; [|split].
  - unfold neq, end_iterator. cbn [cursors_ empty].
    destruct cs; cbn; split; intros H; try reflexivity; discriminate H.
  - intros c Hin Hc.
    destruct (visited_sentinel root recurse inc k cs c Hv Hin Hc)
      as (Hk & Hcs & _).
    auto.
  - intros t rest ->.
    destruct (visited_Inv root recurse inc k _ Hv) as [E|[Hl [Hb Hs]]];
      [discriminate E|].
    split; [exact (linked_below root t rest Hl)|]. split; [exact Hb|].
    intros Hge. unfold next, after_pop.
    destruct (Z.eqb_spec (i_ t) (-1)) as [E|_]; [lia|].
    destruct (Z.geb_spec (i_ t) (Z.of_nat (numAttributes (module_ t))))
      as [_|Hlt]; [|lia].
    destruct rest; reflexivity.
Qed.

Lemma stack_invariant_witness :
  Forall (fun c => 0 <= i_ c < Z.of_nat (numAttributes (module_ c)))
    [mkCursor Samples.root 1] /\
  -1 <= 1 <= Z.of_nat (numAttributes (mkModule Samples.sub_b)).
Proof.
  assert (Hv : visited Samples.root true false 3
                 [mkCursor (mkModule Samples.sub_b) 1;
                  mkCursor Samples.root 1]).
  { eapply visited_next with (cs := [mkCursor (mkModule Samples.sub_b) 0;
                                     mkCursor Samples.root 1]);
      [|reflexivity].
    eapply visited_next with (cs := [mkCursor Samples.root 1]);
      [|reflexivity].
    eapply visited_next with (cs := [mkCursor Samples.root 0]);
      [|reflexivity].
    apply visited_init. }
  destruct (stack_invariant Samples.root true false 3 _ Hv) as (_ & _ & H).
  destruct (H _ _ eq_refl) as (H1 & H2 & _).
  split; [exact H1 | exact H2].
Defined.

(** C10: over a structurally valid tree, every slot a policy's [valid]
    accepts holds a value of the kind the policy's [create] expects; and at
    every iterator reached through [begin()] and [operator++] that rests on
    a slot, [valid] has accepted the slot and [operator*] succeeds: the
    failing branch of the conversion in [create] is not taken. *)
Theorem valid_guards_create P root :
  structurally_valid (_ivalue root) = true ->
  (forall a, slot_of_tree (_ivalue root) a -> policy_valid P a = true ->
     expects P (getValue a) = true) /\
  (forall recurse inc k it t rest,
     reachable P root recurse inc k it ->
     cursors_ it = t :: rest -> i_ t <> -1 ->
     exists a x,
       attribute_at (module_ t) (i_ t) = Ok a /\
       policy_valid P a = true /\
       expects P (getValue a) = true /\
       create P (cursors_ it) (getValue a) = Ok x /\
       deref P it = Ok x).
Proof.
  intros Hwf.
  assert (Hexp : forall a, slot_conforms a = true ->
            policy_valid P a = true -> expects P (getValue a) = true).
  { intros a Hc Hv. unfold slot_conforms in Hc.
    apply andb_true_iff in Hc. destruct Hc as [Hm Ht].
    induction P as [| | | |P' IH]; cbn in *.
    - rewrite Hv in Hm. exact Hm.
    - apply andb_true_iff in Hv. apply Hv.
    - apply andb_true_iff in Hv. destruct Hv as [Hty _].
      rewrite Hty in Ht. exact Ht.
    - reflexivity.
    - apply IH. exact Hv. }
  split.
  - intros a Hs Hv. apply Hexp; [|exact Hv].
    exact (slot_of_tree_conforms _ a Hwf Hs).
  - intros recurse inc k it t rest Hr Hcs Hi.
    destruct (reachable_visited P root recurse inc k it Hr)
      as (Hrec & (j & _ & Hv) & Hstop).
    rewrite Hcs in Hv, Hstop.
    destruct Hstop as [E|Hat]; [discriminate E|].
    destruct (visited_Inv root recurse inc j _ Hv) as [E|[Hl _]];
      [discriminate E|].
    destruct (deref_accepted P root (recurse_ it) t rest Hl (or_introl Hwf)
                Hat Hi) as (a & x & Ha & Hpv & _ & Hcr & Hd).
    exists a, x. rewrite Hcs.
    repeat split; try assumption.
    + apply Hexp; [|exact Hpv].
      pose proof (linked_valid root _ Hwf Hl) as Hf.
      inversion Hf as [|t0 l0 Ht _]; subst.
      apply (valid_slot (module_ t) a Ht (attribute_at_In _ _ _ Ha)).
    + destruct it as [cs r]. cbn in Hcs. subst cs. exact Hd.
Qed.

Lemma valid_guards_create_witness :
  exists a x,
    attribute_at (mkModule Samples.sub_b) 0 = Ok a /\
    policy_valid BufferPolicy a = true /\
    expects BufferPolicy (getValue a) = true /\
    create BufferPolicy
      [mkCursor (mkModule Samples.sub_b) 0; mkCursor Samples.root 1]
      (getValue a) = Ok x /\
    deref BufferPolicy
      (mkIter [mkCursor (mkModule Samples.sub_b) 0; mkCursor Samples.root 1]
         true) = Ok x.
Proof.
  apply (proj2 (valid_guards_create BufferPolicy Samples.root eq_refl)
           true false 0%nat
           (mkIter [mkCursor (mkModule Samples.sub_b) 0;
                    mkCursor Samples.root 1] true)
           (mkCursor (mkModule Samples.sub_b) 0) [mkCursor Samples.root 1]).
  - apply reachable_begin with (fuel := 4%nat). reflexivity.
  - reflexivity.
  - discriminate.
Defined.

(** ** The elements of a list in pre-order *)

Lemma mapM_app {A B : Type} (f : A -> result B) l1 l2 :
  mapM f (l1 ++ l2)
  = (xs <- mapM f l1 ;; ys <- mapM f l2 ;; Ok (xs ++ ys)).
Proof.
  induction l1 as [|x l1 IH]; cbn [app mapM bind].
  - destruct (mapM f l2); reflexivity.
  - destruct (f x) as [y|e]; cbn [bind]; [|reflexivity].
    rewrite IH. destruct (mapM f l1) as [xs|e]; cbn [bind]; [|reflexivity].
    destruct (mapM f l2); reflexivity.
Qed.

Lemma create_project P cs v n :
  named_name cs = Ok n -> create P cs v = project P n v.
Proof.
  intros Hn. induction P as [| | | |P' IH]; cbn [create project];
    try reflexivity.
  rewrite Hn, IH. reflexivity.
Qed.

(** The name of a position on a slot: the names of the path below it, then
    the slot's own. *)
Lemma named_name_slot m i rest path a :
  mapM nameFragment (rev rest) = Ok path ->
  attribute_at m i = Ok a ->
  mapM nameFragment (rev (mkCursor m i :: rest)) = Ok (path ++ [getName a]) /\
  named_name (mkCursor m i :: rest)
  = Ok (String.concat "."%string (path ++ [getName a])).
Proof.
  intros Hp Ha.
  assert (Hi : i <> -1) by (pose proof (attribute_at_range m i a Ha); lia).
  assert (Hall : mapM nameFragment (rev (mkCursor m i :: rest))
                 = Ok (path ++ [getName a])).
  { cbn [rev]. rewrite mapM_app, Hp. cbn [bind mapM].
    unfold nameFragment, getAttributeName. cbn [module_ i_].
    rewrite Ha. reflexivity. }
  split; [exact Hall|].
  rewrite named_name_dotted. unfold dotted_name. rewrite Hall. cbn [bind].
  destruct rest; [|reflexivity]. cbn [i_].
  destruct (Z.eqb_spec i (-1)); [contradiction | reflexivity].
Qed.

Lemma deref_slot P recurse m i rest path a :
  mapM nameFragment (rev rest) = Ok path ->
  attribute_at m i = Ok a ->
  deref P (mkIter (mkCursor m i :: rest) recurse)
  = project P (String.concat "."%string (path ++ [getName a])) (getValue a).
Proof.
  intros Hp Ha. unfold deref. cbn [cursors_].
  assert (Hi : i <> -1) by (pose proof (attribute_at_range m i a Ha); lia).
  rewrite cur_slot by exact Hi. unfold getSlot. cbn [module_ i_].
  rewrite Ha. cbn [bind].
  apply create_project.
  apply (named_name_slot m i rest path a Hp Ha).
Qed.

Lemma stops_cons c (b : bool) l :
  stops ((c, b) :: l) = (if b then [c] else []) ++ stops l.
Proof. unfold stops. cbn. destruct b; reflexivity. Qed.

Section Collect.

Variable P : Policy.
Variable recurse : bool.

Lemma collect_slots_walk ss rest path :
  mapM nameFragment (rev rest) = Ok path ->
  forall suf pre,
  ss = pre ++ suf ->
  Forall (fun a =>
    (recurse = true -> structurally_valid (getValue a) = true) ->
    forall ss' rest' path', getValue a = IVObject ss' ->
    mapM nameFragment (rev rest') = Ok path' ->
    mapM (fun c => deref P (mkIter c recurse))
      (stops (walk P recurse (getValue a) rest'))
    = collect P recurse (getValue a) path') suf ->
  (recurse = true ->
   forallb (fun a => slot_conforms a &&
              (if is_module (getType a) then structurally_valid (getValue a)
               else true)) suf = true) ->
  mapM (fun c => deref P (mkIter c recurse))
    (stops (walk_slots P recurse (walk P recurse) (mkModule ss) rest suf
              (List.length pre)))
  = collect_slots P recurse (collect P recurse) path suf.
Proof.
  intros Hp. induction suf as [|a suf IH]; intros pre Hss Hall Hwf.
  - reflexivity.
  - cbn [walk_slots collect_slots].
    assert (Ha : attribute_at (mkModule ss) (Z.of_nat (List.length pre))
                 = Ok a) by (apply (attribute_at_app _ pre a suf); exact Hss).
    inversion Hall as [|a0 l0 Hsub Hall']; subst a0 l0.
    assert (Hrest :
      mapM (fun c => deref P (mkIter c recurse))
        (stops (walk_slots P recurse (walk P recurse) (mkModule ss) rest suf
                  (S (List.length pre))))
      = collect_slots P recurse (collect P recurse) path suf).
    { replace (S (List.length pre)) with (List.length (pre ++ [a]))
        by (rewrite length_app; simpl; lia).
      apply IH.
      - rewrite <- app_assoc. exact Hss.
      - exact Hall'.
      - intros Hr. specialize (Hwf Hr). cbn [forallb] in Hwf.
        apply andb_true_iff in Hwf. apply Hwf. }
    assert (Hsubw :
      mapM (fun c => deref P (mkIter c recurse))
        (stops (if recurse && is_module (getType a)
                then walk P recurse (getValue a)
                       (mkCursor (mkModule ss) (Z.of_nat (List.length pre))
                          :: rest)
                else []))
      = (if recurse && is_module (getType a)
         then collect P recurse (getValue a) (path ++ [getName a])
         else Ok [])).
    { destruct (recurse && is_module (getType a)) eqn:Hdesc; [|reflexivity].
      apply andb_true_iff in Hdesc. destruct Hdesc as [Hr Hm].
      specialize (Hwf Hr). cbn [forallb] in Hwf.
      apply andb_true_iff in Hwf. destruct Hwf as [Hwa _].
      apply andb_true_iff in Hwa. destruct Hwa as [Hconf Hsv].
      rewrite Hm in Hsv.
      unfold slot_conforms in Hconf. rewrite Hm in Hconf.
      apply andb_true_iff in Hconf. destruct Hconf as [Hobj _].
      cbn [implb] in Hobj.
      destruct (getValue a) as [| |t|ss'] eqn:Hv; try discriminate Hobj.
      apply (Hsub (fun _ => Hsv) ss'); [reflexivity|].
      apply (named_name_slot _ _ rest path a Hp Ha). }
    rewrite stops_cons, stops_app, !mapM_app, Hrest, Hsubw.
    destruct (policy_valid P a).
    + cbn [mapM]. rewrite (deref_slot P recurse _ _ rest path a Hp Ha).
      destruct (project P _ (getValue a)); cbn [bind]; [|reflexivity].
      destruct (if recurse && is_module (getType a)
                then collect P recurse (getValue a) (path ++ [getName a])
                else Ok []); cbn [bind]; [|reflexivity].
      destruct (collect_slots P recurse (collect P recurse) path suf);
        reflexivity.
    + cbn [mapM bind].
      destruct (if recurse && is_module (getType a)
                then collect P recurse (getValue a) (path ++ [getName a])
                else Ok []); cbn [bind]; [|reflexivity].
      destruct (collect_slots P recurse (collect P recurse) path suf);
        reflexivity.
Qed.

Lemma collect_walk : forall v,
  (recurse = true -> structurally_valid v = true) ->
  forall ss rest path, v = IVObject ss ->
  mapM nameFragment (rev rest) = Ok path ->
  mapM (fun c => deref P (mkIter c recurse)) (stops (walk P recurse v rest))
  = collect P recurse v path.
Proof.
  induction v as [| | |ss0 IH] using IValue_nested_ind;
    intros Hwf ss rest path Hv Hp; try discriminate Hv.
  cbn [walk collect].
  apply (collect_slots_walk ss0 rest path Hp ss0 []);
    [reflexivity | exact IH | exact Hwf].
Qed.

End Collect.

Lemma deref_sentinel P recurse root :
  deref P (mkIter [mkCursor root (-1)] recurse)
  = project P EmptyString (_ivalue root).
Proof.
  unfold deref, cur. cbn [cursors_ top bind i_ module_ Z.eqb Pos.eqb].
  apply create_project. reflexivity.
Qed.

Lemma elements_collect P root recurse inc fuel :
  (recurse = true -> structurally_valid (_ivalue root) = true) ->
  (List.length (positions P root recurse inc) < fuel)%nat ->
  elements P fuel (make_list P root recurse inc)
  = collect_list P root recurse inc.
Proof.
  intros Hwf Hfuel.
  pose proof (positions_Walk P recurse root inc Hwf) as Hw.
  unfold make_list.
  rewrite (elements_walk P recurse root inc _ _ fuel Hw Hfuel).
  unfold positions, collect_list.
  assert (Hc : mapM (fun c => deref P (mkIter c recurse))
                 (stops (walk P recurse (_ivalue root) []))
               = collect P recurse (_ivalue root) []).
  { destruct root as [ss].
    apply (collect_walk P recurse (IVObject ss) Hwf ss [] []); reflexivity. }
  destruct inc; [|exact Hc].
  cbn [app]. rewrite stops_cons. cbn [app mapM].
  rewrite Hc, deref_sentinel. reflexivity.
Qed.

(** X1: exhaustive iteration of a list yields its elements in depth-first
    pre-order: the root itself first when it is included, then each accepted
    slot followed by the accepted slots of the module it holds (when
    recursion is on), each projected by the policy under the dot-joined path
    of slot names that leads to it.  A failing projection fails the
    iteration.  Recursion needs a structurally valid tree. *)
Theorem elements_preorder P root recurse inc fuel :
  (recurse = true -> structurally_valid (_ivalue root) = true) ->
  (List.length (positions P root recurse inc) < fuel)%nat ->
  elements P fuel (make_list P root recurse inc)
  = collect_list P root recurse inc.
Proof. apply elements_collect. Qed.

Lemma elements_preorder_witness :
  elements (NamedPolicy BufferPolicy) 7
    (make_list (NamedPolicy BufferPolicy) Samples.root true false)
  = Ok [mkNamed "b.c"%string 2%nat].
Proof.
  rewrite (elements_preorder (NamedPolicy BufferPolicy) Samples.root true
             false 7); [reflexivity | reflexivity | vm_compute; lia].
Defined.

(** ** Lists without recursion *)

Lemma collect_slots_flat P sub : forall suf,
  collect_slots P false sub [] suf
  = mapM (fun a => project P (getName a) (getValue a))
         (filter (policy_valid P) suf).
Proof.
  induction suf as [|a suf IH]; [reflexivity|].
  cbn [collect_slots filter andb app String.concat]. rewrite IH.
  destruct (policy_valid P a); cbn [mapM bind].
  - destruct (project P (getName a) (getValue a)); cbn [bind]; [|reflexivity].
    destruct (mapM _ (filter (policy_valid P) suf)); reflexivity.
  - destruct (mapM _ (filter (policy_valid P) suf)); reflexivity.
Qed.

Lemma positions_flat_length P root :
  List.length (positions P root false false) = S (num_slots root).
Proof.
  unfold positions, _ivalue, num_slots. cbn [app walk].
  apply walk_slots_flat_length.
Qed.

Lemma elements_flat P m fuel :
  (num_slots m + 1 < fuel)%nat ->
  elements P fuel (make_list P m false false)
  = mapM (fun a => project P (getName a) (getValue a))
         (filter (policy_valid P) (slots m)).
Proof.
  intros Hfuel.
  pose proof (positions_Walk P false m false
                (fun H => False_ind _ (Bool.diff_false_true H))) as Hw.
  unfold make_list.
  rewrite (elements_walk P false m false _ _ fuel Hw)
    by (rewrite positions_flat_length; lia).
  unfold positions. cbn [app]. destruct m as [ss].
  unfold _ivalue. cbn [slots].
  rewrite (collect_walk P false (IVObject ss)
             (fun H => False_ind _ (Bool.diff_false_true H)) ss [] [])
    by reflexivity.
  cbn [collect slots]. apply collect_slots_flat.
Qed.

(** X2: without recursion and without the root, a list of any policy yields
    exactly the slots of the module that the policy accepts, in slot order,
    each projected under its own slot name; this holds for every tree, and
    the iteration fails exactly when a projection does. *)
Theorem flat_list_filters_slots P m fuel :
  (num_slots m + 1 < fuel)%nat ->
  elements P fuel (make_list P m false false)
  = mapM (fun a => project P (getName a) (getValue a))
         (filter (policy_valid P) (slots m)).
Proof. apply elements_flat. Qed.

Lemma flat_list_filters_slots_witness :
  elements (NamedPolicy ModulePolicy) 5
    (make_list (NamedPolicy ModulePolicy) Samples.root false false)
  = Ok [mkNamed "b"%string (mkModule Samples.sub_b)].
Proof.
  rewrite (flat_list_filters_slots (NamedPolicy ModulePolicy) Samples.root 5);
    [reflexivity | vm_compute; lia].
Defined.

(** ** What an iterator rests on *)

(** X3: on every tree, an iterator obtained by [begin()] and any number of
    [operator++] is terminal, or is the freshly constructed iterator of a
    list that includes the root and rests on the root itself, or rests on a
    slot in range that the policy's [valid] accepts. *)
Theorem iterator_rests_on_accepted P root recurse inc k it :
  reachable P root recurse inc k it ->
  cursors_ it = [] \/
  (cursors_ it = [mkCursor root (-1)] /\ inc = true /\ k = 0%nat) \/
  (exists t rest a,
     cursors_ it = t :: rest /\ i_ t <> -1 /\
     attribute_at (module_ t) (i_ t) = Ok a /\ policy_valid P a = true).
Proof.
  intros Hr.
  destruct (reachable_visited P root recurse inc k it Hr)
    as (_ & (j & Hkj & Hv) & Hstop).
  destruct Hstop as [E|Hat]; [left; exact E|right].
  destruct (at_element_accepted P _ Hat) as (t & rest & Hcs & Hc).
  destruct Hc as [Hs|(a & Ha & Hpv & Hi)].
  - left. rewrite Hcs in Hv.
    destruct (visited_sentinel root recurse inc j _ t Hv (or_introl eq_refl) Hs)
      as (Hj & Hone & Hinc).
    injection Hone as ->. subst j.
    assert (Hk : k = 0%nat) by (destruct k; [reflexivity | exfalso; lia]).
    inversion Hv; subst. rewrite Hcs. auto.
  - right. exists t, rest, a. auto.
Qed.

Lemma iterator_rests_on_accepted_witness :
  cursors_ (mkIter [mkCursor Samples.broken 0] true) = [] \/
  (cursors_ (mkIter [mkCursor Samples.broken 0] true)
   = [mkCursor Samples.broken (-1)] /\ false = true /\ 0%nat = 0%nat) \/
  (exists t rest a,
     cursors_ (mkIter [mkCursor Samples.broken 0] true) = t :: rest /\
     i_ t <> -1 /\
     attribute_at (module_ t) (i_ t) = Ok a /\
     policy_valid ModulePolicy a = true).
Proof.
  apply (iterator_rests_on_accepted ModulePolicy Samples.broken true false 0).
  apply reachable_begin with (fuel := 1%nat). reflexivity.
Defined.

(** ** Policies and the failure of [operator*] *)

Lemma project_expects P n v :
  (expects P v = true -> exists x, project P n v = Ok x) /\
  (expects P v = false -> project P n v = Err TypeMismatch).
Proof.
  induction P as [| | | |P' [IH1 IH2]]; cbn [expects project].
  - destruct v; cbn; split; intros H; try discriminate H; eauto.
  - destruct v; cbn; split; intros H; try discriminate H; eauto.
  - destruct v; cbn; split; intros H; try discriminate H; eauto.
  - split; [eauto | intros H; discriminate H].
  - split; intros H.
    + destruct (IH1 H) as [x Hx]. rewrite Hx. cbn. eauto.
    + rewrite (IH2 H). reflexivity.
Qed.

Lemma valid_tests_value_expects P a :
  valid_tests_value P = true -> policy_valid P a = true ->
  expects P (getValue a) = true.
Proof.
  induction P as [| | | |P' IH]; cbn; intros Hc Hv;
    try discriminate Hc; auto.
  apply andb_true_iff in Hv. apply Hv.
Qed.

(** X4: for the parameter and attribute policies and their named forms,
    [operator*] succeeds at every iterator that [begin()] and [operator++]
    reach on a slot, on every tree, structurally valid or not:
    [ParameterPolicy::valid] has tested [isTensor] on the very value that
    [create] converts. *)
Theorem value_testing_policy_derefs P root recurse inc k it t rest :
  valid_tests_value P = true ->
  reachable P root recurse inc k it ->
  cursors_ it = t :: rest -> i_ t <> -1 ->
  exists x, deref P it = Ok x.
Proof.
  intros Hc Hr Hcs Hi.
  destruct (reachable_visited P root recurse inc k it Hr)
    as (_ & (j & _ & Hv) & Hstop).
  rewrite Hcs in Hv, Hstop. destruct Hstop as [E|Hat]; [discriminate E|].
  destruct (visited_Inv root recurse inc j _ Hv) as [E|[Hl _]];
    [discriminate E|].
  destruct (at_element_accepted P _ Hat) as (t0 & rest0 & E & Hslot).
  injection E as <- <-.
  destruct Hslot as [Hs|(a & Ha & Hpv & _)]; [contradiction|].
  pose proof (attribute_at_range _ _ _ Ha) as Hrange.
  destruct t as [m i]. cbn [module_ i_] in *.
  assert (Hpath : exists path, mapM nameFragment (rev rest) = Ok path).
  { apply mapM_total. apply Forall_rev.
    apply (linked_named root _ Hl). }
  destruct Hpath as [path Hpath].
  destruct it as [cs r]. cbn [cursors_] in Hcs. subst cs.
  rewrite (deref_slot P r m i rest path a Hpath Ha).
  apply project_expects. apply valid_tests_value_expects; assumption.
Qed.

Lemma value_testing_policy_derefs_witness :
  exists x,
    deref (NamedPolicy ParameterPolicy)
      (mkIter [mkCursor Samples.root 0] true) = Ok x.
Proof.
  apply (value_testing_policy_derefs (NamedPolicy ParameterPolicy)
           Samples.root true false 0 _ (mkCursor Samples.root 0) []).
  - reflexivity.
  - apply reachable_begin with (fuel := 1%nat). reflexivity.
  - reflexivity.
  - discriminate.
Defined.

Lemma mapM_fails {A B : Type} (f : A -> result B) e l x :
  (forall y e', f y = Err e' -> e' = e) ->
  In x l -> f x = Err e -> mapM f l = Err e.
Proof.
  intros Honly. induction l as [|y l IH]; intros Hin Hx; [destruct Hin|].
  cbn [mapM]. destruct (f y) as [z|e'] eqn:Hy.
  - cbn [bind]. destruct Hin as [->|Hin]; [congruence|].
    rewrite (IH Hin Hx). reflexivity.
  - cbn [bind]. rewrite (Honly y e' Hy). reflexivity.
Qed.

(** X5: [BufferPolicy::valid] and [ModulePolicy::valid] look at the declared
    type only.  When a module has a slot that the policy accepts but whose
    value is not of the kind [create] converts (a tensor-typed, unmarked
    slot without a tensor; a module-typed slot without an object), iterating
    the module's list without recursion throws the conversion's error. *)
Theorem flat_list_throws_on_mismatch P m a fuel :
  In a (slots m) ->
  policy_valid P a = true ->
  expects P (getValue a) = false ->
  (num_slots m + 1 < fuel)%nat ->
  elements P fuel (make_list P m false false) = Err TypeMismatch /\
  size P fuel (make_list P m false false) = Err TypeMismatch.
Proof.
  intros Hin Hv He Hfuel.
  assert (Hel : elements P fuel (make_list P m false false)
                = Err TypeMismatch).
  { rewrite (elements_flat P m fuel Hfuel).
    apply (mapM_fails _ TypeMismatch _ a).
    - intros y e' Hy.
      destruct (expects P (getValue y)) eqn:Ey.
      + destruct (proj1 (project_expects P (getName y) (getValue y)) Ey)
          as [x Hx]. congruence.
      + pose proof (proj2 (project_expects P (getName y) (getValue y)) Ey).
        congruence.
    - apply filter_In. split; assumption.
    - apply project_expects. exact He. }
  split; [exact Hel|].
  unfold size.
  assert (Hns : all_slots P = false).
  { destruct (all_slots P) eqn:Hall; [|reflexivity].
    assert (Ht : expects P (getValue a) = true).
    { clear - Hall. induction P; cbn in *; try discriminate Hall; auto. }
    congruence. }
  unfold make_list at 1. cbn [size_]. rewrite Hns, andb_false_r.
  rewrite Hel. reflexivity.
Qed.

Lemma flat_list_throws_on_mismatch_witness :
  elements ModulePolicy 3 (make_list ModulePolicy Samples.broken false false)
  = Err TypeMismatch /\
  size ModulePolicy 3 (make_list ModulePolicy Samples.broken false false)
  = Err TypeMismatch.
Proof.
  apply (flat_list_throws_on_mismatch ModulePolicy Samples.broken
           (mkAttribute "b"%string Samples.module_type false IVNone) 3).
  - left; reflexivity.
  - reflexivity.
  - reflexivity.
  - vm_compute; lia.
Defined.

(** X6: a list of a tensor-yielding policy (parameters, buffers and their
    named forms) that includes the root cannot be iterated: the constructor
    stops on the root itself, which counts as valid whatever the policy, and
    [operator*] then converts the module object to a tensor and throws; so do
    exhaustive iteration and [size()]. *)
Theorem root_of_tensor_list_throws P root recurse fuel :
  yields_tensor P = true ->
  (1 <= fuel)%nat ->
  make_iterator P fuel root recurse true
  = Ok (mkIter [mkCursor root (-1)] recurse) /\
  deref P (mkIter [mkCursor root (-1)] recurse) = Err TypeMismatch /\
  elements P fuel (make_list P root recurse true) = Err TypeMismatch /\
  size P fuel (make_list P root recurse true) = Err TypeMismatch.
Proof.
  intros Hy Hfuel. destruct fuel as [|fuel]; [lia|].
  assert (Hd : deref P (mkIter [mkCursor root (-1)] recurse)
               = Err TypeMismatch).
  { rewrite deref_sentinel. apply project_expects.
    clear - Hy. induction P; cbn in *; try discriminate Hy; auto. }
  assert (Hel : elements P (S fuel) (make_list P root recurse true)
                = Err TypeMismatch).
  { unfold elements, begin_, make_iterator, make_list.
    cbn [list_module_ list_recurse_ list_return_module_ while_not_valid_next
         return_module top bind i_ Z.eqb Pos.eqb for_each neq cursors_ empty
         end_iterator Bool.eqb negb].
    rewrite Hd. reflexivity. }
  split; [reflexivity|]. split; [exact Hd|]. split; [exact Hel|].
  unfold size. unfold make_list at 1. cbn [size_].
  rewrite andb_false_r. cbn [andb]. rewrite Hel. reflexivity.
Qed.

Lemma root_of_tensor_list_throws_witness :
  elements ParameterPolicy 4
    (make_list ParameterPolicy Samples.root true true) = Err TypeMismatch.
Proof.
  apply (root_of_tensor_list_throws ParameterPolicy Samples.root true 4);
    [reflexivity | lia].
Defined.

(** ** When [next] throws *)

Lemma attribute_at_in_range m i :
  0 <= i < Z.of_nat (numAttributes m) -> exists a, attribute_at m i = Ok a.
Proof.
  intros H. unfold attribute_at, numAttributes in *.
  destruct (Z.ltb_spec i 0) as [Hlt|_]; [lia|].
  destruct (nth_error (slots m) (Z.to_nat i)) as [a|] eqn:E;
    [eexists; reflexivity|].
  apply nth_error_None in E. lia.
Qed.

(** X7: in a state the iterator passes through, [next] throws exactly when
    recursion is on and the top cursor rests on a module-typed slot whose
    value is not an object, and then with the error of [toModule]; in every
    other state that has a cursor it returns. *)
Theorem next_throws_only_on_descent root recurse inc k cs e :
  visited root recurse inc k cs ->
  cs <> [] ->
  (next recurse cs = Err e <->
   e = TypeMismatch /\ recurse = true /\
   exists t rest a,
     cs = t :: rest /\
     attribute_at (module_ t) (i_ t) = Ok a /\
     is_module (getType a) = true /\ isObject (getValue a) = false).
Proof.
  intros Hv Hne.
  destruct (visited_Inv root recurse inc k cs Hv) as [E|[Hl Hb]];
    [contradiction|].
  destruct cs as [|t rest]; [contradiction|].
  destruct Hb as [Hb Hs]. unfold next.
  destruct (Z.eqb_spec (i_ t) (-1)) as [E|E].
  { split; [intros H; discriminate H|].
    intros (_ & _ & t0 & rest0 & a & Hcs & Ha & _).
    injection Hcs as <- <-.
    pose proof (attribute_at_range _ _ _ Ha). lia. }
  destruct (Z.geb_spec (i_ t) (Z.of_nat (numAttributes (module_ t))))
    as [Hge|Hlt].
  { split.
    - destruct rest; intros H; discriminate H.
    - intros (_ & _ & t0 & rest0 & a & Hcs & Ha & _).
      injection Hcs as <- <-.
      pose proof (attribute_at_range _ _ _ Ha). lia. }
  destruct (attribute_at_in_range (module_ t) (i_ t) ltac:(lia)) as [a Ha].
  rewrite (cur_slot t rest E). unfold getAttribute, getSlot. rewrite Ha.
  cbn [bind].
  destruct recurse.
  - destruct (is_module (getType a)) eqn:Hm.
    + destruct (isObject (getValue a)) eqn:Hobj.
      * assert (Htm : exists sub, toModule (getValue a) = Ok sub).
        { destruct (getValue a); try discriminate Hobj.
          eexists; reflexivity. }
        destruct Htm as [sub Htm]. rewrite Htm. cbn [bind].
        split; [intros H; discriminate H|].
        intros (_ & _ & t0 & rest0 & a0 & Hcs & Ha0 & _ & Hobj0).
        injection Hcs as <- <-. rewrite Ha in Ha0. injection Ha0 as <-.
        congruence.
      * assert (Htm : toModule (getValue a) = Err TypeMismatch)
          by (destruct (getValue a); try reflexivity; discriminate Hobj).
        rewrite Htm. cbn [bind]. split.
        -- intros H. injection H as <-.
           split; [reflexivity|]. split; [reflexivity|].
           exists t, rest, a. auto.
        -- intros (-> & _). reflexivity.
    + split; [intros H; discriminate H|].
      intros (_ & _ & t0 & rest0 & a0 & Hcs & Ha0 & Hm0 & _).
      injection Hcs as <- <-. rewrite Ha in Ha0. injection Ha0 as <-.
      congruence.
  - split; [intros H; discriminate H|].
    intros (_ & Hr & _). discriminate Hr.
Qed.

Lemma next_throws_only_on_descent_witness :
  next true [mkCursor Samples.broken 0] = Err TypeMismatch.
Proof.
  apply (next_throws_only_on_descent Samples.broken true false 0
           [mkCursor Samples.broken 0] TypeMismatch).
  - apply visited_init.
  - discriminate.
  - repeat split.
    exists (mkCursor Samples.broken 0), [],
      (mkAttribute "b"%string Samples.module_type false IVNone).
    repeat split.
Defined.

(** ** The size cache *)

Lemma fast_path_count P root fuel xs :
  all_slots P = true ->
  elements P fuel (make_list P root false false) = Ok xs ->
  List.length xs = num_slots root.
Proof.
  intros Hall Hxs.
  apply (elements_mono P fuel (fuel + num_slots root + 2)) in Hxs; [|lia].
  rewrite elements_flat in Hxs by lia.
  rewrite (mapM_length _ _ _ Hxs). unfold num_slots.
  clear Hxs. induction (slots root) as [|a l IH]; [reflexivity|].
  cbn [filter]. rewrite (all_slots_valid P a Hall). cbn [List.length].
  rewrite IH. reflexivity.
Qed.

(** X8: once [size()] of a list has returned a number, calling it again
    returns the same number from the cache without iterating (any step
    budget will do, even none) and leaves the list as it is; and every later
    exhaustive iteration of the list yields exactly that many elements. *)
Theorem size_is_cached P root recurse inc fuel n l' :
  size P fuel (make_list P root recurse inc) = Ok (n, l') ->
  size_ l' = Some n /\
  (forall fuel', size P fuel' l' = Ok (n, l')) /\
  (forall fuel' xs, elements P fuel' l' = Ok xs -> List.length xs = n).
Proof.
  unfold size. intros H.
  destruct (size_ (make_list P root recurse inc)) as [m|] eqn:Hs.
  - injection H as <- <-. rewrite Hs.
    split; [reflexivity|]. split; [reflexivity|].
    intros fuel' xs Hxs.
    unfold make_list in Hs. cbn [size_] in Hs.
    destruct (negb recurse && negb inc && all_slots P) eqn:Hc;
      [|discriminate Hs].
    injection Hs as <-.
    apply andb_true_iff in Hc. destruct Hc as [Hc Hall].
    apply andb_true_iff in Hc. destruct Hc as [Hr Hi].
    apply negb_true_iff in Hr, Hi. subst recurse inc.
    apply (fast_path_count P root fuel' xs Hall Hxs).
  - destruct (elements P fuel (make_list P root recurse inc)) as [ys|e] eqn:Hys;
      [|discriminate H].
    cbn [bind] in H. injection H as <- <-. cbn [size_].
    split; [reflexivity|]. split; [reflexivity|].
    intros fuel' xs Hxs.
    assert (Hxs' : elements P fuel' (make_list P root recurse inc) = Ok xs)
      by exact Hxs.
    rewrite (elements_deterministic P _ _ _ _ _ Hxs' Hys). reflexivity.
Qed.

Lemma size_is_cached_witness :
  size BufferPolicy 0 (mkList Samples.root true false (Some 1%nat))
  = Ok (1%nat, mkList Samples.root true false (Some 1%nat)).
Proof.
  apply (size_is_cached BufferPolicy Samples.root true false 7 1
           (mkList Samples.root true false (Some 1%nat))).
  reflexivity.
Defined.


(** ** Counting elements and steps *)

Lemma stops_count_accepted P : forall v rest,
  List.length (stops (walk P true v rest)) = total_accepted P v.
Proof.
  induction v as [| | |ss IH] using IValue_nested_ind; intros rest;
    try reflexivity.
  cbn [walk total_accepted].
  enough (Hgen : forall i m,
    List.length (stops (walk_slots P true (walk P true) m rest ss i))
    = list_sum (map (fun a => ((if policy_valid P a then 1 else 0)
                               + (if is_module (getType a)
                                  then total_accepted P (getValue a)
                                  else 0))%nat) ss))
    by apply Hgen.
  induction IH as [|a suf Ha _ IHsuf]; intros i m.
  - reflexivity.
  - cbn [walk_slots map andb].
    rewrite stops_cons, stops_app, !length_app, IHsuf.
    change (list_sum (?x :: ?l)) with (x + list_sum l)%nat.
    destruct (is_module (getType a)); [rewrite Ha|];
      destruct (policy_valid P a); cbn [stops filter map List.length]; lia.
Qed.

(** X9: over a structurally valid tree, the list of any policy with
    recursion and without the root iterates to its end, and both the
    iteration and [size()] count exactly the slots the policy accepts among
    the slots of all containers reachable from the root. *)
Theorem recursive_size_counts_accepted P root fuel :
  structurally_valid (_ivalue root) = true ->
  (List.length (positions P root true false) < fuel)%nat ->
  exists xs,
    elements P fuel (make_list P root true false) = Ok xs /\
    List.length xs = total_accepted P (_ivalue root) /\
    size P fuel (make_list P root true false)
    = Ok (total_accepted P (_ivalue root),
          mkList root true false (Some (total_accepted P (_ivalue root)))).
Proof.
  intros Hwf Hfuel.
  destruct (elements_total P root true fuel) as (xs & Hxs & Hlen);
    [intros _; exact Hwf | left; exact Hwf | exact Hfuel |].
  assert (Hn : List.length xs = total_accepted P (_ivalue root)).
  { rewrite Hlen. unfold positions. cbn [app]. apply stops_count_accepted. }
  exists xs. split; [exact Hxs|]. split; [exact Hn|].
  unfold size. unfold make_list at 1. cbn [size_ negb andb].
  rewrite Hxs. cbn [bind]. rewrite Hn. reflexivity.
Qed.

Lemma recursive_size_counts_accepted_witness :
  exists xs,
    elements ModulePolicy 7 (make_list ModulePolicy Samples.root true false)
    = Ok xs /\
    List.length xs = 1%nat /\
    size ModulePolicy 7 (make_list ModulePolicy Samples.root true false)
    = Ok (1%nat, mkList Samples.root true false (Some 1%nat)).
Proof.
  apply (recursive_size_counts_accepted ModulePolicy Samples.root 7);
    [reflexivity | vm_compute; lia].
Defined.

(** X10: for the parameter and attribute policies and their named forms, on
    every module, structurally valid or not, the list without recursion
    iterates to its end and its size is the number of slots of the module
    that the policy accepts. *)
Theorem flat_size_counts_accepted P m fuel :
  valid_tests_value P = true ->
  (num_slots m + 1 < fuel)%nat ->
  exists xs l',
    elements P fuel (make_list P m false false) = Ok xs /\
    List.length xs = List.length (filter (policy_valid P) (slots m)) /\
    size P fuel (make_list P m false false)
    = Ok (List.length (filter (policy_valid P) (slots m)), l').
Proof.
  intros Hc Hfuel.
  destruct (mapM_total (fun a => project P (getName a) (getValue a))
              (filter (policy_valid P) (slots m))) as [xs Hxs].
  { apply Forall_forall. intros a Ha. apply filter_In in Ha.
    apply project_expects. apply valid_tests_value_expects; tauto. }
  assert (Hel : elements P fuel (make_list P m false false) = Ok xs)
    by (rewrite elements_flat by exact Hfuel; exact Hxs).
  pose proof (mapM_length _ _ _ Hxs) as Hlen.
  unfold size.
  destruct (size_ (make_list P m false false)) as [n|] eqn:Hs.
  - unfold make_list in Hs. cbn [size_ negb andb] in Hs.
    destruct (all_slots P) eqn:Hall; [|discriminate Hs].
    injection Hs as <-.
    exists xs, (make_list P m false false).
    rewrite <- Hlen, (fast_path_count P m fuel xs Hall Hel). auto.
  - rewrite Hel. cbn [bind]. rewrite Hlen. eauto.
Qed.

Lemma flat_size_counts_accepted_witness :
  exists xs l',
    elements ParameterPolicy 3
      (make_list ParameterPolicy Samples.broken false false) = Ok xs /\
    List.length xs = 0%nat /\
    size ParameterPolicy 3
      (make_list ParameterPolicy Samples.broken false false)
    = Ok (0%nat, l').
Proof.
  apply (flat_size_counts_accepted ParameterPolicy Samples.broken 3);
    [reflexivity | vm_compute; lia].
Defined.

Lemma walk_length P : forall v rest,
  List.length (walk P true v rest) = (total_slots v + total_modules v)%nat.
Proof.
  induction v as [| | |ss IH] using IValue_nested_ind; intros rest;
    try reflexivity.
  cbn [walk total_slots total_modules].
  enough (Hgen : forall i m,
    List.length (walk_slots P true (walk P true) m rest ss i)
    = (list_sum (map (fun a => S (if is_module (getType a)
                                  then total_slots (getValue a) else O)) ss)
       + S (list_sum (map (fun a => if is_module (getType a)
                                    then total_modules (getValue a) else O)
                          ss)))%nat)
    by apply Hgen.
  induction IH as [|a suf Ha _ IHsuf]; intros i m.
  - reflexivity.
  - cbn [walk_slots map andb List.length].
    rewrite length_app, IHsuf.
    change (list_sum (?x :: ?l)) with (x + list_sum l)%nat.
    destruct (is_module (getType a)); [rewrite Ha|]; cbn [List.length]; lia.
Qed.

Lemma positions_length P root recurse inc :
  List.length (positions P root recurse inc) = traversal_steps root recurse inc.
Proof.
  unfold positions, traversal_steps. rewrite length_app.
  destruct recurse.
  - rewrite walk_length. destruct inc; reflexivity.
  - unfold _ivalue, num_slots. cbn [walk].
    rewrite walk_slots_flat_length. destruct inc; cbn [List.length]; lia.
Qed.

Lemma Walk_steps P recurse c l c' :
  Walk P recurse c l c' ->
  steps recurse (List.length l) c = Ok c' /\
  (forall k, (k < List.length l)%nat ->
     exists t rest, steps recurse k c = Ok (t :: rest)).
Proof.
  induction 1 as [|c b c1 l c2 Hat Hnext Hw [IH1 IH2]].
  - split; [reflexivity | intros k Hk; cbn in Hk; lia].
  - split.
    + cbn [List.length steps]. rewrite Hnext. exact IH1.
    + intros k Hk. destruct k as [|k].
      * cbn [steps]. destruct c as [|t rest]; [discriminate Hat|]. eauto.
      * cbn [steps]. rewrite Hnext. cbn [bind]. apply IH2.
        cbn [List.length] in Hk. lia.
Qed.

(** X11: a whole traversal takes a number of steps of [next] that is linear
    in the tree: one per slot of every container entered and one to leave
    each such container (when recursion is off, only the root is entered),
    plus one to step off the root when it is included.  After exactly that
    many steps from the constructor's stack the stack is empty, and not
    before. *)
Theorem traversal_is_linear root recurse inc :
  (recurse = true -> structurally_valid (_ivalue root) = true) ->
  steps recurse (traversal_steps root recurse inc)
    [mkCursor root (if inc then -1 else 0)] = Ok [] /\
  (forall k, (k < traversal_steps root recurse inc)%nat ->
     exists t rest,
       steps recurse k [mkCursor root (if inc then -1 else 0)]
       = Ok (t :: rest)).
Proof.
  intros Hwf.
  pose proof (positions_Walk AttributePolicy recurse root inc Hwf) as Hw.
  apply Walk_steps in Hw. rewrite positions_length in Hw. exact Hw.
Qed.

Lemma traversal_is_linear_witness :
  steps true 6 [mkCursor Samples.root 0] = Ok [].
Proof.
  apply (traversal_is_linear Samples.root true false). reflexivity.
Defined.

(** ** Named lists and plain lists *)

Lemma while_named P recurse fuel : forall cs,
  while_not_valid_next (NamedPolicy P) fuel recurse cs
  = while_not_valid_next P fuel recurse cs.
Proof.
  induction fuel as [|fuel IH]; intros cs; [reflexivity|].
  cbn [while_not_valid_next]. destruct cs as [|t rest]; [reflexivity|].
  destruct (return_module (t :: rest)) as [rm|e]; [|reflexivity].
  cbn [bind]. destruct rm; [reflexivity|].
  change (valid (NamedPolicy P) (t :: rest)) with (valid P (t :: rest)).
  destruct (valid P (t :: rest)) as [ok|e]; [|reflexivity].
  cbn [bind]. destruct ok; [reflexivity|].
  destruct (next recurse (t :: rest)); [|reflexivity].
  cbn [bind]. apply IH.
Qed.

Lemma for_each_named P fuel n : forall it acc xs,
  for_each (NamedPolicy P) fuel n it acc = Ok xs ->
  for_each P fuel n it (map value acc) = Ok (map value xs).
Proof.
  induction n as [|n IH]; intros it acc xs H; [discriminate H|].
  cbn [for_each] in *.
  destruct (neq it end_iterator); [|injection H as <-; reflexivity].
  unfold deref in *. cbn [create] in H.
  destruct (cur (cursors_ it)) as [v|e]; [|discriminate H].
  cbn [bind] in *.
  destruct (named_name (cursors_ it)) as [s|e]; [|discriminate H].
  cbn [bind] in H.
  destruct (create P (cursors_ it) v) as [x|e]; [|discriminate H].
  cbn [bind] in *.
  unfold next_valid in *.
  destruct (cursors_ it) as [|t rest].
  - cbn [bind] in *. apply IH in H. rewrite map_app in H. exact H.
  - destruct (next (recurse_ it) (t :: rest)) as [cs1|e]; [|discriminate H].
    cbn [bind] in *. rewrite while_named in H.
    destruct (while_not_valid_next P fuel (recurse_ it) cs1) as [cs2|e];
      [|discriminate H].
    cbn [bind] in *. apply IH in H. rewrite map_app in H. exact H.
Qed.

(** X12: whenever the named list of a policy iterates to its end, the plain
    list of that policy over the same root and flags does too, with the same
    step budget, and yields the values of the named elements in the same
    order: naming changes neither which slots are yielded nor their order. *)
Theorem named_list_same_values P root recurse inc fuel xs :
  elements (NamedPolicy P) fuel (make_list (NamedPolicy P) root recurse inc)
  = Ok xs ->
  elements P fuel (make_list P root recurse inc) = Ok (map value xs).
Proof.
  unfold elements, begin_, make_iterator, make_list.
  cbn [list_module_ list_recurse_ list_return_module_].
  rewrite while_named.
  destruct (while_not_valid_next P fuel recurse _) as [cs|e];
    [|intros H; discriminate H].
  cbn [bind]. intros H.
  apply (for_each_named P fuel fuel _ [] xs H).
Qed.

Lemma named_list_same_values_witness :
  elements AttributePolicy 7 (make_list AttributePolicy Samples.root true false)
  = Ok (map value
          [mkNamed "a"%string (IVTensor 1%nat);
           mkNamed "b"%string (IVObject Samples.sub_b);
           mkNamed "b.c"%string (IVTensor 2%nat);
           mkNamed "n"%string (IVInt 7)]).
Proof.
  apply (named_list_same_values AttributePolicy Samples.root true false 7).
  reflexivity.
Defined.

(** ** The modules of a tree *)

Lemma modules_accepted : forall v,
  structurally_valid v = true -> isObject v = true ->
  total_modules v = S (total_accepted ModulePolicy v).
Proof.
  induction v as [| | |ss IH] using IValue_nested_ind; intros Hwf Hobj;
    try discriminate Hobj.
  cbn [total_modules total_accepted]. f_equal.
  cbn [structurally_valid] in Hwf. clear Hobj.
  induction IH as [|a suf Ha _ IHsuf]; [reflexivity|].
  cbn [forallb] in Hwf. apply andb_true_iff in Hwf.
  destruct Hwf as [Hwa Hsuf]. apply andb_true_iff in Hwa.
  destruct Hwa as [Hconf Hsv].
  cbn [map policy_valid].
  change (list_sum (?x :: ?l)) with (x + list_sum l)%nat.
  rewrite (IHsuf Hsuf).
  destruct (is_module (getType a)) eqn:Hm; [|reflexivity].
  unfold slot_conforms in Hconf. rewrite Hm in Hconf.
  apply andb_true_iff in Hconf. destruct Hconf as [Hobj _].
  cbn [implb] in Hobj. rewrite (Ha Hsv Hobj). reflexivity.
Qed.

(** X13: over a structurally valid tree, the recursive module list that
    includes the root (the list [modules()] returns, "all modules, including
    this one, recursively") iterates to its end, yields the root first, and
    yields as many modules as the tree has containers; [size()] returns that
    number. *)
Theorem modules_counts_containers root fuel :
  structurally_valid (_ivalue root) = true ->
  (traversal_steps root true true < fuel)%nat ->
  exists subs,
    elements ModulePolicy fuel (make_list ModulePolicy root true true)
    = Ok (root :: subs) /\
    List.length (root :: subs) = total_modules (_ivalue root) /\
    size ModulePolicy fuel (make_list ModulePolicy root true true)
    = Ok (total_modules (_ivalue root),
          mkList root true true (Some (total_modules (_ivalue root)))).
Proof.
  intros Hwf Hfuel.
  assert (Hf : (List.length (positions ModulePolicy root true false) < fuel)%nat).
  { rewrite positions_length. unfold traversal_steps in *. lia. }
  destruct (elements_total ModulePolicy root true fuel (fun _ => Hwf)
              (or_introl Hwf) Hf) as (subs & Hsubs & Hlen).
  rewrite (elements_collect ModulePolicy root true false fuel (fun _ => Hwf) Hf)
    in Hsubs.
  assert (Hel : elements ModulePolicy fuel
                  (make_list ModulePolicy root true true)
                = Ok (root :: subs)).
  { rewrite (elements_collect ModulePolicy root true true fuel (fun _ => Hwf))
      by (rewrite positions_length; exact Hfuel).
    unfold collect_list in *. rewrite Hsubs.
    destruct root as [ss]. reflexivity. }
  assert (Hn : List.length (root :: subs) = total_modules (_ivalue root)).
  { change (List.length (root :: subs)) with (S (List.length subs)).
    rewrite Hlen. unfold positions. cbn [app]. rewrite stops_count_accepted.
    symmetry. apply modules_accepted; [exact Hwf | reflexivity]. }
  exists subs. split; [exact Hel|]. split; [exact Hn|].
  unfold size. unfold make_list at 1. cbn [size_ negb andb].
  rewrite Hel. cbn [bind]. rewrite <- Hn. reflexivity.
Qed.

Lemma modules_counts_containers_witness :
  exists subs,
    elements ModulePolicy 8 (make_list ModulePolicy Samples.root true true)
    = Ok (Samples.root :: subs) /\
    List.length (Samples.root :: subs) = 2%nat /\
    size ModulePolicy 8 (make_list ModulePolicy Samples.root true true)
    = Ok (2%nat, mkList Samples.root true true (Some 2%nat)).
Proof.
  apply (modules_counts_containers Samples.root 8);
    [reflexivity | vm_compute; lia].
Defined.

(** ** c10::MaybeOwned *)

Section MaybeOwnedFacts.

Variable T : Type.
Variable moved_from : T -> T.

(** X14: copying a well-formed [MaybeOwned], by the copy constructor or by
    copy assignment onto any well-formed object (borrowed or owned), gives
    an object equal to the source: a borrow of the same original, or an
    owned equal [T]; no union member is read, destroyed or overwritten out
    of turn and the closing assertion [isBorrowed_ == rhs.isBorrowed_]
    holds. *)
Theorem MaybeOwned_copy (lhs rhs : c10.MaybeOwned T) :
  c10.well_formed rhs = true ->
  c10.copy rhs = c10.Done rhs /\
  (c10.well_formed lhs = true -> c10.copy_assign lhs rhs = c10.Done rhs).
Proof.
  destruct rhs as [br [p|t|]], lhs as [bl [q|s|]];
    destruct br, bl; cbn; intros H; try discriminate H;
    split; try reflexivity; intros H'; try discriminate H'; reflexivity.
Qed.

(** X15: moving from a well-formed [MaybeOwned], by the move constructor or
    by move assignment onto any well-formed object, gives an object equal to
    the source as it was, and leaves the source well-formed with its
    borrowed/owned state as before: a borrow is left as it is, an owned [T]
    is left moved-from. *)
Theorem MaybeOwned_move (lhs rhs : c10.MaybeOwned T) :
  c10.well_formed rhs = true ->
  exists rhs',
    c10.move T moved_from rhs = c10.Done (rhs, rhs') /\
    (c10.well_formed lhs = true ->
     c10.move_assign T moved_from lhs rhs = c10.Done (rhs, rhs')) /\
    c10.well_formed rhs' = true /\
    c10.isBorrowed_ rhs' = c10.isBorrowed_ rhs /\
    (c10.isBorrowed_ rhs = true -> rhs' = rhs) /\
    (forall t, c10.union_ rhs = c10.own_ t ->
       c10.union_ rhs' = c10.own_ (moved_from t)).
Proof.
  destruct rhs as [br [p|t|]]; destruct br; cbn; intros H;
    try discriminate H.
  - exists (c10.mkMaybeOwned true (c10.borrow_ p)).
    split; [reflexivity|]. split.
    + destruct lhs as [bl [q|s|]]; destruct bl; cbn; intros H';
        try discriminate H'; reflexivity.
    + repeat split. intros t Ht. discriminate Ht.
  - exists (c10.mkMaybeOwned false (c10.own_ (moved_from t))).
    split; [reflexivity|]. split.
    + destruct lhs as [bl [q|s|]]; destruct bl; cbn; intros H';
        try discriminate H'; reflexivity.
    + repeat split.
      * intros H'. discriminate H'.
      * intros t0 Ht. injection Ht as <-. reflexivity.
Qed.

(** X16: dereferencing a well-formed [MaybeOwned] that owns its [T] always
    succeeds, whatever the memory; only a borrow can fail, by being null or
    by pointing to no object.
    When [operator*] succeeds, the rvalue [operator*] hands out the same
    [T] and leaves the object well-formed in the same borrowed/owned state;
    and the destructor of a well-formed object leaves no [T] alive in its
    storage. *)
Theorem MaybeOwned_deref (mem : c10.memory T) (m : c10.MaybeOwned T) :
  c10.well_formed m = true ->
  (c10.isBorrowed_ m = false ->
   exists t, c10.union_ m = c10.own_ t /\ c10.deref mem m = c10.Done t) /\
  (forall f, c10.deref mem m = c10.Fault f ->
     c10.isBorrowed_ m = true /\
     (f = c10.NullBorrow \/ f = c10.DanglingBorrow)) /\
  (forall t, c10.deref mem m = c10.Done t ->
     exists m',
       c10.take T moved_from mem m = c10.Done (t, m') /\
       c10.well_formed m' = true /\
       c10.isBorrowed_ m' = c10.isBorrowed_ m) /\
  (exists u, c10.destructor m = c10.Done u /\ forall t, u <> c10.own_ t).
Proof.
  destruct m as [b [p|t|]]; destruct b; cbn; intros H; try discriminate H.
  - split; [intros H'; discriminate H'|]. split; [|split].
    + intros f Hf. split; [reflexivity|].
      destruct p as [a|]; cbn in Hf.
      * destruct (mem a); [discriminate Hf|]. injection Hf as <-. auto.
      * injection Hf as <-. auto.
    + intros t Ht. unfold c10.take. cbn. rewrite Ht. cbn. eauto.
    + eexists. split; [reflexivity|]. intros t Ht. discriminate Ht.
  - split; [intros _; eauto|]. split; [|split].
    + intros f Hf. discriminate Hf.
    + intros t0 Ht. injection Ht as <-. unfold c10.take. cbn. eauto.
    + eexists. split; [reflexivity|]. intros t0 Ht. discriminate Ht.
Qed.

(** Every constructor establishes the invariant that the flag tells
    which union member is alive.  The default-constructed object is a null
    borrow, and dereferencing it fails; [borrowed] of an object dereferences
    to whatever lives at that object's address, so it follows the original;
    [owned] of a [T] dereferences to that [T] under any memory and leaves
    its argument moved-from, and a copy of it is again an owner of an equal
    [T]. *)
Lemma MaybeOwned_constructors (mem : c10.memory T) (a : c10.address) (t : T) :
  (c10.well_formed (@c10.default T) = true /\
   c10.deref mem (@c10.default T) = c10.Fault c10.NullBorrow) /\
  (c10.well_formed (@c10.borrowed T a) = true /\
   c10.deref mem (c10.borrowed a)
   = match mem a with
     | Some x => c10.Done x
     | None => c10.Fault c10.DanglingBorrow
     end) /\
  (c10.well_formed (fst (c10.owned T moved_from t)) = true /\
   c10.deref mem (fst (c10.owned T moved_from t)) = c10.Done t /\
   snd (c10.owned T moved_from t) = moved_from t /\
   c10.and_then (c10.copy (fst (c10.owned T moved_from t))) (c10.deref mem)
   = c10.Done t).
Proof. repeat split. Qed.

End MaybeOwnedFacts.

Lemma MaybeOwned_copy_witness :
  c10.copy_assign (c10.mkMaybeOwned false (c10.own_ 5%nat)) (@c10.borrowed nat 3%nat)
  = c10.Done (@c10.borrowed nat 3%nat).
Proof.
  apply (MaybeOwned_copy nat (c10.mkMaybeOwned false (c10.own_ 5%nat))
           (@c10.borrowed nat 3%nat)); reflexivity.
Defined.

Lemma MaybeOwned_move_witness :
  exists rhs',
    c10.move nat (fun _ => 0%nat) (c10.mkMaybeOwned false (c10.own_ 5%nat))
    = c10.Done (c10.mkMaybeOwned false (c10.own_ 5%nat), rhs') /\
    c10.well_formed rhs' = true.
Proof.
  destruct (MaybeOwned_move nat (fun _ => 0%nat) c10.default
              (c10.mkMaybeOwned false (c10.own_ 5%nat)) eq_refl)
    as (rhs' & H1 & _ & H2 & _).
  exists rhs'. split; [exact H1 | exact H2].
Defined.

Lemma MaybeOwned_deref_witness :
  exists t,
    c10.union_ (c10.mkMaybeOwned false (c10.own_ 5%nat)) = c10.own_ t /\
    c10.deref (fun _ => None) (c10.mkMaybeOwned false (c10.own_ 5%nat))
    = c10.Done t.
Proof.
  apply (MaybeOwned_deref nat (fun _ => 0%nat) (fun _ => None)
           (c10.mkMaybeOwned false (c10.own_ 5%nat)) eq_refl).
  reflexivity.
Defined.
